(** * Drawing context, executor and generation lineage of the image editor

    Shallow embedding of [executor.ts] ([DrawingContextImpl], [createDrawingContext],
    [executeCode]), of the [executeCode] tool of [imageEditorAgent] and of the
    generation bookkeeping of [simpleImageEditorAgent] ([code-exec.ts]).

    Modelling conventions.
    - A JS [number] is modelled as a real number [R]: arithmetic is exact, the
      IEEE rounding of the host is not modelled.
    - The layer counter only ever holds [0] and successors, it is a [nat].
    - A template literal is a list of [piece]s: literal text and interpolated
      values.  Interpolating a string inserts it verbatim, interpolating a
      number inserts [String(n)]; the number printer is a parameter of
      [render_pieces], since the claims never depend on it. *)

From Stdlib Require Import String Ascii List Bool ZArith Lia Reals Lra.
From Stdlib Require Import Sorting.Permutation Sorting.Sorted.
Import ListNotations.
Set Warnings "-register-all".
Open Scope string_scope.

(* ------------------------------------------------------------------ *)
(** ** Template literals *)

Inductive piece :=
| PStr (s : string)
| PNum (n : R).

Definition dq : string := String (ascii_of_nat 34) EmptyString.

(** [`...${x}...`] rendered with a printer [show] for numbers. *)
Fixpoint render_pieces (show : R -> string) (ps : list piece) : string :=
  match ps with
  | [] => ""
  | PStr s :: ps' => s ++ render_pieces show ps'
  | PNum n :: ps' => show n ++ render_pieces show ps'
  end.


(* ------------------------------------------------------------------ *)
(** ** [interface.ts]: option records *)

Record BaseOpts := mkBaseOpts {
  bo_fill : option string;
  bo_stroke : option string;
  bo_strokeWidth : option R;
  bo_opacity : option R
}.

Record RectOpts := mkRectOpts {
  ro_base : BaseOpts;
  ro_borderRadius : option R
}.

Definition ShapeOpts := BaseOpts.

(** [LineOpts]: [stroke] and [width] are required fields. *)
Record LineOpts := mkLineOpts {
  lo_stroke : string;
  lo_width : R;
  lo_opacity : option R
}.

Record PathOpts := mkPathOpts {
  po_base : BaseOpts;
  po_closed : option bool
}.

Record TextOpts := mkTextOpts {
  to_fill : option string;
  to_font : option string;
  to_size : option R;
  to_weight : option R;
  to_opacity : option R
}.

Definition Point : Type := (R * R)%type.

(** [a ?? d] *)
Definition coalesce {A} (a : option A) (d : A) : A :=
  match a with Some v => v | None => d end.

(** [opts?.f] *)
Definition opt_get {O A} (f : O -> option A) (opts : option O) : option A :=
  match opts with Some o => f o | None => None end.

(* ------------------------------------------------------------------ *)
(** ** Resolved styles: the [const fill = opts?.fill ?? ...] lines *)

Record ShapeStyle := mkShapeStyle {
  st_fill : string;
  st_stroke : string;
  st_strokeWidth : R;
  st_opacity : R
}.

(** Shared by [rect], [circle], [triangle], [path] and [arc]. *)
Definition base_style (opts : option BaseOpts) : ShapeStyle :=
  {| st_fill := coalesce (opt_get bo_fill opts) "transparent";
     st_stroke := coalesce (opt_get bo_stroke opts) "none";
     st_strokeWidth := coalesce (opt_get bo_strokeWidth opts) 0%R;
     st_opacity := coalesce (opt_get bo_opacity opts) 1%R |}.

Definition rect_style (opts : option RectOpts) : ShapeStyle :=
  base_style (option_map ro_base opts).

Definition rect_borderRadius (opts : option RectOpts) : R :=
  coalesce (opt_get ro_borderRadius opts) 0%R.

Definition path_style (opts : option PathOpts) : ShapeStyle :=
  base_style (option_map po_base opts).

Definition path_closed (opts : option PathOpts) : bool :=
  coalesce (opt_get po_closed opts) false.

Record LineStyle := mkLineStyle {
  ls_stroke : string;
  ls_width : R;
  ls_opacity : R
}.

Definition line_style (opts : option LineOpts) : LineStyle :=
  {| ls_stroke := coalesce (option_map lo_stroke opts) "#000";
     ls_width := coalesce (option_map lo_width opts) 1%R;
     ls_opacity := coalesce (opt_get lo_opacity opts) 1%R |}.

Record TextStyle := mkTextStyle {
  ts_fill : string;
  ts_font : string;
  ts_size : R;
  ts_weight : R;
  ts_opacity : R
}.

Definition text_style (opts : option TextOpts) : TextStyle :=
  {| ts_fill := coalesce (opt_get to_fill opts) "#000";
     ts_font := coalesce (opt_get to_font opts) "Arial";
     ts_size := coalesce (opt_get to_size opts) 16%R;
     ts_weight := coalesce (opt_get to_weight opts) 400%R;
     ts_opacity := coalesce (opt_get to_opacity opts) 1%R |}.

(* ------------------------------------------------------------------ *)
(** ** The SVG text of each drawing operation *)

(** [name="v1v2..."], an attribute whose value interpolates several parts. *)
Definition attrs (name : string) (vs : list piece) : list piece :=
  PStr (" " ++ name ++ "=" ++ dq) :: vs ++ [PStr dq].

Definition attr (name : string) (v : piece) : list piece := attrs name [v].

Definition rect_svg (x y width height : R) (opts : option RectOpts) : list piece :=
  let s := rect_style opts in
  [PStr "<rect"] ++ attr "x" (PNum x) ++ attr "y" (PNum y)
  ++ attr "width" (PNum width) ++ attr "height" (PNum height)
  ++ attr "fill" (PStr (st_fill s)) ++ attr "stroke" (PStr (st_stroke s))
  ++ attr "stroke-width" (PNum (st_strokeWidth s))
  ++ attr "rx" (PNum (rect_borderRadius opts))
  ++ attr "opacity" (PNum (st_opacity s)) ++ [PStr " />"].

Definition circle_svg (x y radius : R) (opts : option ShapeOpts) : list piece :=
  let s := base_style opts in
  [PStr "<circle"] ++ attr "cx" (PNum x) ++ attr "cy" (PNum y)
  ++ attr "r" (PNum radius)
  ++ attr "fill" (PStr (st_fill s)) ++ attr "stroke" (PStr (st_stroke s))
  ++ attr "stroke-width" (PNum (st_strokeWidth s))
  ++ attr "opacity" (PNum (st_opacity s)) ++ [PStr " />"].

Definition triangle_svg (x1 y1 x2 y2 x3 y3 : R) (opts : option ShapeOpts)
  : list piece :=
  let s := base_style opts in
  [PStr "<polygon"]
  ++ attrs "points" [PNum x1; PStr ","; PNum y1; PStr " "; PNum x2; PStr ",";
                     PNum y2; PStr " "; PNum x3; PStr ","; PNum y3]
  ++ attr "fill" (PStr (st_fill s)) ++ attr "stroke" (PStr (st_stroke s))
  ++ attr "stroke-width" (PNum (st_strokeWidth s))
  ++ attr "opacity" (PNum (st_opacity s)) ++ [PStr " />"].

Definition line_svg (x1 y1 x2 y2 : R) (opts : option LineOpts) : list piece :=
  let s := line_style opts in
  [PStr "<line"] ++ attr "x1" (PNum x1) ++ attr "y1" (PNum y1)
  ++ attr "x2" (PNum x2) ++ attr "y2" (PNum y2)
  ++ attr "stroke" (PStr (ls_stroke s))
  ++ attr "stroke-width" (PNum (ls_width s))
  ++ attr "opacity" (PNum (ls_opacity s)) ++ [PStr " />"].

(** The [d] attribute of [path]: [M first] then [ L point] for the rest,
    then [ Z] when closed. *)
Definition path_d (first : Point) (rest : list Point) (closed : bool)
  : list piece :=
  [PStr "M "; PNum (fst first); PStr ","; PNum (snd first)]
  ++ flat_map (fun p => [PStr " L "; PNum (fst p); PStr ","; PNum (snd p)]) rest
  ++ (if closed then [PStr " Z"] else []).

(** The [<path>] element shared by [path] and [arc]. *)
Definition path_el (d : list piece) (s : ShapeStyle) : list piece :=
  [PStr "<path"] ++ attrs "d" d
  ++ attr "fill" (PStr (st_fill s)) ++ attr "stroke" (PStr (st_stroke s))
  ++ attr "stroke-width" (PNum (st_strokeWidth s))
  ++ attr "opacity" (PNum (st_opacity s)) ++ [PStr " />"].

(** [arc]: degrees to radians, the two end points, the two flags. *)
Definition deg_to_rad (a : R) : R := (a * PI / 180)%R.

Definition arc_point (x y radius angle : R) : Point :=
  ((x + radius * cos (deg_to_rad angle))%R, (y + radius * sin (deg_to_rad angle))%R).

Definition largeArcFlag (startAngle endAngle : R) : R :=
  if Rlt_dec 180 (Rabs (endAngle - startAngle)) then 1%R else 0%R.

Definition sweepFlag (startAngle endAngle : R) : R :=
  if Rlt_dec startAngle endAngle then 1%R else 0%R.

Definition arc_d (x y radius startAngle endAngle : R) : list piece :=
  let p1 := arc_point x y radius startAngle in
  let p2 := arc_point x y radius endAngle in
  [PStr "M "; PNum x; PStr ","; PNum y;
   PStr " L "; PNum (fst p1); PStr ","; PNum (snd p1);
   PStr " A "; PNum radius; PStr ","; PNum radius; PStr " 0 ";
   PNum (largeArcFlag startAngle endAngle); PStr ",";
   PNum (sweepFlag startAngle endAngle); PStr " ";
   PNum (fst p2); PStr ","; PNum (snd p2); PStr " Z"].

(** [s.replace(/c/g, r)] for a one-character pattern [c]. *)
Fixpoint replace_all (c : ascii) (r : string) (s : string) : string :=
  match s with
  | EmptyString => EmptyString
  | String a s' =>
      if Ascii.eqb a c then r ++ replace_all c r s'
      else String a (replace_all c r s')
  end.

Definition escape_text (content : string) : string :=
  replace_all ">" "&gt;" (replace_all "<" "&lt;" (replace_all "&" "&amp;" content)).

Definition text_svg (content : string) (x y : R) (opts : option TextOpts)
  : list piece :=
  let s := text_style opts in
  [PStr "<text"] ++ attr "x" (PNum x) ++ attr "y" (PNum y)
  ++ attr "font-family" (PStr (ts_font s))
  ++ attr "font-size" (PNum (ts_size s))
  ++ attr "font-weight" (PNum (ts_weight s))
  ++ attr "fill" (PStr (ts_fill s))
  ++ attr "opacity" (PNum (ts_opacity s))
  ++ attr "text-anchor" (PStr "middle")
  ++ attr "dominant-baseline" (PStr "central")
  ++ [PStr ">"; PStr (escape_text content); PStr "</text>"].

(* ------------------------------------------------------------------ *)
(** ** [DrawingContextImpl] *)

Record Element := mkElement {
  layer : nat;
  svg : list piece
}.

Record DrawingContext := mkDrawingContext {
  elements : list Element;
  currentLayer : nat;
  canvasSize : R
}.

(** [new DrawingContextImpl(size)] *)
Definition new_DrawingContextImpl (size : R) : DrawingContext :=
  {| elements := []; currentLayer := 0; canvasSize := size |}.

(** [this.elements.push({ layer: this.currentLayer, svg })] *)
Definition push_svg (s : list piece) (c : DrawingContext) : DrawingContext :=
  {| elements := elements c ++ [{| layer := currentLayer c; svg := s |}];
     currentLayer := currentLayer c;
     canvasSize := canvasSize c |}.

Definition rect (x y width height : R) (opts : option RectOpts) (c : DrawingContext)
  : DrawingContext :=
  push_svg (rect_svg x y width height opts) c.

Definition circle (x y radius : R) (opts : option ShapeOpts) (c : DrawingContext)
  : DrawingContext :=
  push_svg (circle_svg x y radius opts) c.

Definition triangle (x1 y1 x2 y2 x3 y3 : R) (opts : option ShapeOpts)
  (c : DrawingContext) : DrawingContext :=
  push_svg (triangle_svg x1 y1 x2 y2 x3 y3 opts) c.

Definition line (x1 y1 x2 y2 : R) (opts : option LineOpts) (c : DrawingContext)
  : DrawingContext :=
  push_svg (line_svg x1 y1 x2 y2 opts) c.

(** [path]: the empty point list returns early. *)
Definition path (points : list Point) (opts : option PathOpts) (c : DrawingContext)
  : DrawingContext :=
  match points with
  | [] => c
  | first :: rest =>
      push_svg (path_el (path_d first rest (path_closed opts)) (path_style opts)) c
  end.

Definition arc (x y radius startAngle endAngle : R) (opts : option ShapeOpts)
  (c : DrawingContext) : DrawingContext :=
  push_svg (path_el (arc_d x y radius startAngle endAngle) (base_style opts)) c.

Definition text (content : string) (x y : R) (opts : option TextOpts)
  (c : DrawingContext) : DrawingContext :=
  push_svg (text_svg content x y opts) c.

(** [layer()]: [this.currentLayer++] *)
Definition next_layer (c : DrawingContext) : DrawingContext :=
  {| elements := elements c;
     currentLayer := S (currentLayer c);
     canvasSize := canvasSize c |}.

(** The public methods of the [DrawingContext] interface, with their arguments. *)
Inductive method :=
| MRect (x y width height : R) (opts : option RectOpts)
| MCircle (x y radius : R) (opts : option ShapeOpts)
| MTriangle (x1 y1 x2 y2 x3 y3 : R) (opts : option ShapeOpts)
| MLine (x1 y1 x2 y2 : R) (opts : option LineOpts)
| MPath (points : list Point) (opts : option PathOpts)
| MArc (x y radius startAngle endAngle : R) (opts : option ShapeOpts)
| MText (content : string) (x y : R) (opts : option TextOpts)
| MLayer.

(** The effect of a method body on [this]. *)
Definition method_body (m : method) : DrawingContext -> DrawingContext :=
  match m with
  | MRect x y w h o => rect x y w h o
  | MCircle x y r o => circle x y r o
  | MTriangle x1 y1 x2 y2 x3 y3 o => triangle x1 y1 x2 y2 x3 y3 o
  | MLine x1 y1 x2 y2 o => line x1 y1 x2 y2 o
  | MPath ps o => path ps o
  | MArc x y r a b o => arc x y r a b o
  | MText s x y o => text s x y o
  | MLayer => next_layer
  end.

(** The contexts [executeCode] hands to user code: a fresh one after a
    sequence of method calls. *)
Definition run_methods (ms : list method) (c : DrawingContext) : DrawingContext :=
  fold_left (fun c m => method_body m c) ms c.

(** [toSVG]: a stable sort of a copy of [elements] by [a.layer - b.layer].
    [Array.prototype.sort] is stable (ECMAScript 2019), so its result for this
    comparator is the one of the stable insertion sort below. *)
Definition compare_layers (a b : Element) : Z :=
  (Z.of_nat (layer a) - Z.of_nat (layer b))%Z.

Fixpoint insert_by_layer (e : Element) (l : list Element) : list Element :=
  match l with
  | [] => [e]
  | e' :: l' =>
      if (compare_layers e e' <=? 0)%Z then e :: e' :: l'
      else e' :: insert_by_layer e l'
  end.

Fixpoint sort_by_layer (l : list Element) : list Element :=
  match l with
  | [] => []
  | e :: l' => insert_by_layer e (sort_by_layer l')
  end.

Definition newline : string := String (ascii_of_nat 10) EmptyString.

(** [xs.join('\n')] on template pieces. *)
Fixpoint join_nl (xs : list (list piece)) : list piece :=
  match xs with
  | [] => []
  | [x] => x
  | x :: xs' => x ++ PStr newline :: join_nl xs'
  end.

Definition toSVG (c : DrawingContext) : list piece :=
  let sorted := sort_by_layer (elements c) in
  [PStr ("<svg width=" ++ dq); PNum (canvasSize c); PStr (dq ++ " height=" ++ dq);
   PNum (canvasSize c);
   PStr (dq ++ " xmlns=" ++ dq ++ "http://www.w3.org/2000/svg" ++ dq ++ ">" ++ newline)]
  ++ join_nl (map svg sorted)
  ++ [PStr (newline ++ "</svg>")].

(** The PNG produced by [sharp(Buffer.from(svg)).resize(n, n).png()]: the
    rasterizer is an external library, a PNG is identified by its inputs. *)
Inductive png := SharpPng (svg : list piece) (size : R).

(** A value thrown by JavaScript code. *)
Inductive thrown :=
| JsError (name message : string)   (* an [Error] instance *)
| JsString (s : string).            (* a thrown primitive, [String(err)] = s *)

(** The settled promise of an [async] function. *)
Inductive promise (A : Type) :=
| Resolved (a : A)
| Rejected (t : thrown).
Arguments Resolved {A} a.
Arguments Rejected {A} t.

(** [sharp(Buffer.from(svg)).resize(n, n).png().toBuffer()]: the external
    rasterizer settles with a PNG or rejects, for instance on an SVG document
    its XML parser refuses.  Everything that renders takes it as a parameter. *)
Definition rasterizer : Type := list piece -> R -> promise png.

(** [toPNG(size?)] *)
Definition toPNG (sharp : rasterizer) (size : option R) (c : DrawingContext)
  : promise png :=
  sharp (toSVG c) (coalesce size (canvasSize c)).

(** The part of XML well-formedness a rasterizer's parser checks on attribute
    values: a scan of the document as text, inside a tag, or inside a quoted
    attribute value.  XML 1.0 (production [AttValue]) forbids a raw [<] in an
    attribute value; a conforming parser reports a fatal error there. *)
Inductive xml_state := InText | InTag | InValue.

Definition quote_char : ascii := ascii_of_nat 34.

Fixpoint xml_scan (st : xml_state) (s : string) : option xml_state :=
  match s with
  | EmptyString => Some st
  | String a s' =>
      match st with
      | InText => xml_scan (if Ascii.eqb a "<"%char then InTag else InText) s'
      | InTag =>
          xml_scan (if Ascii.eqb a quote_char then InValue
                    else if Ascii.eqb a ">"%char then InText else InTag) s'
      | InValue =>
          if Ascii.eqb a "<"%char then None
          else xml_scan (if Ascii.eqb a quote_char then InTag else InValue) s'
      end
  end.

(** An interpolated number prints as digits, a sign, a dot, an exponent or
    [NaN]/[Infinity]: no markup character, the scan skips it. *)
Fixpoint xml_scan_pieces (st : xml_state) (ps : list piece) : option xml_state :=
  match ps with
  | [] => Some st
  | PStr s :: ps' =>
      match xml_scan st s with
      | Some st' => xml_scan_pieces st' ps'
      | None => None
      end
  | PNum _ :: ps' => xml_scan_pieces st ps'
  end.

Definition attribute_values_ok (ps : list piece) : bool :=
  match xml_scan_pieces InText ps with Some _ => true | None => false end.

(** sharp on an SVG input (libvips' [svgload], librsvg on an XML parser): a
    document whose attribute values the parser refuses makes [toBuffer]
    reject.  The wording of libvips' error is not modelled beyond its prefix. *)
Definition sharp_xml : rasterizer :=
  fun svg size =>
    if attribute_values_ok svg then Resolved (SharpPng svg size)
    else Rejected (JsError "Error" "Input buffer has corrupt header").

(* ------------------------------------------------------------------ *)
(** ** Objects and the host global scope *)

(** A heap of [DrawingContextImpl] objects; a reference is an index. *)
Definition loc := nat.

(** The JS values the modelled code handles. *)
Inductive value :=
| VUndefined
| VBool (b : bool)
| VStr (s : string)
| VObj (l : loc).

Definition truthy (v : value) : bool :=
  match v with
  | VUndefined => false
  | VBool b => b
  | VStr s => negb (String.eqb s "")
  | VObj _ => true
  end.

(** The host realm: every object allocated so far and the global object,
    which holds every global binding (in Node also [process], [fetch], ...). *)
Record host := mkHost {
  heap : list DrawingContext;
  globals : list (string * value)
}.

(** The global binding of a name, the most recent assignment first. *)
Fixpoint lookup_global (k : string) (g : list (string * value)) : option value :=
  match g with
  | [] => None
  | (k', v) :: g' => if String.eqb k k' then Some v else lookup_global k g'
  end.

Definition set_global (k : string) (v : value) (h : host) : host :=
  {| heap := heap h; globals := (k, v) :: globals h |}.

Fixpoint set_nth {A} (n : nat) (x : A) (l : list A) : list A :=
  match l, n with
  | [], _ => []
  | _ :: l', O => x :: l'
  | y :: l', S n' => y :: set_nth n' x l'
  end.

(** A method call [o.m(...)] on a [DrawingContextImpl]: runs the body on the
    object and returns [this]. *)
Definition invoke (h : host) (l : loc) (m : method) : option (value * host) :=
  match nth_error (heap h) l with
  | Some c =>
      Some (VObj l, {| heap := set_nth l (method_body m c) (heap h);
                      globals := globals h |})
  | None => None
  end.

(** The property name of each method. *)
Definition method_name (m : method) : string :=
  match m with
  | MRect _ _ _ _ _ => "rect"
  | MCircle _ _ _ _ => "circle"
  | MTriangle _ _ _ _ _ _ _ => "triangle"
  | MLine _ _ _ _ _ => "line"
  | MPath _ _ => "path"
  | MArc _ _ _ _ _ _ => "arc"
  | MText _ _ _ _ => "text"
  | MLayer => "layer"
  end.

(* ------------------------------------------------------------------ *)
(** ** The executed code

    The body passed to [new Function('ctx', ...)] is modelled by the statements
    below, a fragment of JavaScript: method chains on a value, reads of free
    names and of [globalThis] properties, assignments to [globalThis]
    properties, conditionals and [throw].  JavaScript offers the code more
    ([this], which is the global object in the sloppy-mode function, property
    access through [ctx], [process], [fetch], ...): what the fragment shows
    some code can do, JavaScript code can do; what the fragment cannot
    express is not covered. *)

(** Literals of the source text. *)
Inductive literal :=
| LUndefined
| LBool (b : bool)
| LStr (s : string).

Definition literal_value (x : literal) : value :=
  match x with
  | LUndefined => VUndefined
  | LBool b => VBool b
  | LStr s => VStr s
  end.

Inductive expr :=
| ECtx                      (* the parameter [ctx] *)
| EGlobal (k : string)      (* a free identifier [k] *)
| EGlobalProp (k : string)  (* [globalThis.k] *)
| ELit (x : literal).

(** The source text of an expression, as V8 quotes it in error messages
    (a string literal printed between double quotes). *)
Definition expr_text (e : expr) : string :=
  match e with
  | ECtx => "ctx"
  | EGlobal k => k
  | EGlobalProp k => "globalThis." ++ k
  | ELit LUndefined => "undefined"
  | ELit (LBool true) => "true"
  | ELit (LBool false) => "false"
  | ELit (LStr s) => dq ++ s ++ dq
  end.

Inductive stmt :=
| SCall (target : expr) (ms : list method)   (* target.m1(..).m2(..)...; *)
| SSetGlobal (k : string) (e : expr)         (* globalThis.k = e; *)
| SIf (e : expr) (s1 s2 : list stmt)         (* if (e) { s1 } else { s2 } *)
| SThrow (t : thrown).                       (* throw t; *)

(** Source text: either a function body or text [new Function] rejects. *)
Inductive code :=
| Parsed (body : list stmt)
| Unparsable (message : string).

Inductive outcome :=
| Normal (h : host)
| Threw (t : thrown) (h : host).

(** The completion of evaluating an expression. *)
Inductive completion :=
| Val (v : value)
| Exc (t : thrown).

(** V8's error for a free identifier with no binding. *)
Definition reference_error (k : string) : thrown :=
  JsError "ReferenceError" (k ++ " is not defined").

(** Scope of the function built by [new Function('ctx', body)]: its own
    parameter [ctx], then the global scope, where an unbound identifier throws
    and an absent property of [globalThis] reads as [undefined]. *)
Definition eval_expr (ctx : loc) (h : host) (e : expr) : completion :=
  match e with
  | ECtx => Val (VObj ctx)
  | EGlobal k =>
      match lookup_global k (globals h) with
      | Some v => Val v
      | None => Exc (reference_error k)
      end
  | EGlobalProp k => Val (coalesce (lookup_global k (globals h)) VUndefined)
  | ELit x => Val (literal_value x)
  end.

(** V8's error for [src.m(...)] on a receiver that is not an object:
    [undefined] has no properties; a boolean or a string has no method [m]. *)
Definition type_error (src : string) (recv : value) (m : method) : thrown :=
  match recv with
  | VUndefined =>
      JsError "TypeError"
        ("Cannot read properties of undefined (reading '" ++ method_name m ++ "')")
  | _ => JsError "TypeError" (src ++ "." ++ method_name m ++ " is not a function")
  end.

(** [src.m1(..).m2(..)...] on the value of [src]; each call returns [this], V8
    prints an earlier call of the chain as [src.m(...)].  A reference always
    points to an allocated object: the [None] case of [invoke] is never taken. *)
Fixpoint call_chain (src : string) (recv : value) (ms : list method) (h : host)
  : outcome :=
  match ms with
  | [] => Normal h
  | m :: ms' =>
      match recv with
      | VObj l =>
          match invoke h l m with
          | Some (r, h') => call_chain (src ++ "." ++ method_name m ++ "(...)") r ms' h'
          | None => Threw (type_error src VUndefined m) h
          end
      | _ => Threw (type_error src recv m) h
      end
  end.

Fixpoint exec_stmt (ctx : loc) (s : stmt) (h : host) {struct s} : outcome :=
  match s with
  | SCall e ms =>
      match eval_expr ctx h e with
      | Val v => call_chain (expr_text e) v ms h
      | Exc t => Threw t h
      end
  | SSetGlobal k e =>
      match eval_expr ctx h e with
      | Val v => Normal (set_global k v h)
      | Exc t => Threw t h
      end
  | SIf e s1 s2 =>
      let fix exec_block (ss : list stmt) (h : host) : outcome :=
        match ss with
        | [] => Normal h
        | s' :: ss' =>
            match exec_stmt ctx s' h with
            | Normal h' => exec_block ss' h'
            | Threw t h' => Threw t h'
            end
        end in
      match eval_expr ctx h e with
      | Val v => if truthy v then exec_block s1 h else exec_block s2 h
      | Exc t => Threw t h
      end
  | SThrow t => Threw t h
  end.

Fixpoint exec_block (ctx : loc) (ss : list stmt) (h : host) : outcome :=
  match ss with
  | [] => Normal h
  | s :: ss' =>
      match exec_stmt ctx s h with
      | Normal h' => exec_block ctx ss' h'
      | Threw t h' => Threw t h'
      end
  end.

(* ------------------------------------------------------------------ *)
(** ** [executeCode] (executor.ts) *)

(** [createDrawingContext(size)]: allocates a fresh object on the heap. *)
Definition createDrawingContext (size : R) (h : host) : loc * host :=
  (length (heap h),
   {| heap := heap h ++ [new_DrawingContextImpl size]; globals := globals h |}).

(** [ctx.toPNG()] on the object at [l] ([l] is always allocated, the default
    of [nth] is never used). *)
Definition toPNG_at (sharp : rasterizer) (l : loc) (size : R) (h : host) : promise png :=
  toPNG sharp None (nth l (heap h) (new_DrawingContextImpl size)).

(** [executeCode(code, canvasSize)]: create [ctx], build the function (a
    SyntaxError rejects), await it, then return [ctx.toPNG()], whose rejection
    rejects [executeCode]. *)
Definition executeCode (sharp : rasterizer) (c : code) (canvasSize : R) (h : host)
  : promise png * host :=
  let (ctx, h1) := createDrawingContext canvasSize h in
  match c with
  | Unparsable msg => (Rejected (JsError "SyntaxError" msg), h1)
  | Parsed body =>
      match exec_block ctx body h1 with
      | Normal h2 => (toPNG_at sharp ctx canvasSize h2, h2)
      | Threw t h2 => (Rejected t, h2)
      end
  end.

(* ------------------------------------------------------------------ *)
(** ** The [executeCode] tool of [imageEditorAgent] (code-exec.ts) *)

(** [buffer.toString('base64')] *)
Inductive image_data := Base64 (p : png).

Inductive tool_output :=
| ToolSuccess (imageData : image_data)   (* { success: true, imageData } *)
| ToolFailure (error : string).          (* { success: false, error } *)

(** [err instanceof Error ? err.message : String(err)] *)
Definition error_message (t : thrown) : string :=
  match t with
  | JsError _ msg => msg
  | JsString s => s
  end.

(** The tool's [execute]: the [try]/[catch] around [executeCode]; on success
    the closure variable [lastResult] is updated. *)
Definition tool_execute (sharp : rasterizer) (c : code) (canvasSize : R)
  (lastResult : option (code * image_data)) (h : host)
  : tool_output * option (code * image_data) * host :=
  match executeCode sharp c canvasSize h with
  | (Resolved buffer, h') =>
      let imageData := Base64 buffer in
      (ToolSuccess imageData, Some (c, imageData), h')
  | (Rejected err, h') => (ToolFailure (error_message err), lastResult, h')
  end.

(* ------------------------------------------------------------------ *)
(** ** Generation bookkeeping of [simpleImageEditorAgent] (code-exec.ts) *)

Module Lineage.

Inductive generation_type := Debug | Final.

(** A row of the [generation] table. *)
Record generation := mkGeneration {
  id : string;
  threadId : string;
  parentId : option string;
  type : generation_type;
  prompt : string;
  code : string;
  imageData : string
}.

(** An entry of a step's [toolResults]. *)
Record tool_result := mkToolResult {
  toolName : string;
  output_code : string;
  output_imageData : string
}.

(** The agent's mutable state: the table, [lastGenerationId] and the number
    of ids drawn so far from [nanoid]. *)
Record agent_state := mkAgentState {
  db : list generation;
  lastGenerationId : option string;
  drawn : nat
}.

Section Agent.

(** [nanoid()]: the [n]-th id drawn. *)
Variable nanoid : nat -> string.
Variable thread_id : string.
Variable instruction : string.

(** The loop body of [onStepFinish] for one tool result. *)
Definition record_result (st : agent_state) (r : tool_result) : agent_state :=
  if String.eqb (toolName r) "executeCode" then
    let genId := nanoid (drawn st) in
    {| db := db st ++ [{| id := genId; threadId := thread_id;
                          parentId := lastGenerationId st; type := Debug;
                          prompt := instruction; code := output_code r;
                          imageData := output_imageData r |}];
       lastGenerationId := Some genId;
       drawn := S (drawn st) |}
  else st.

Definition onStepFinish (st : agent_state) (toolResults : list tool_result)
  : agent_state :=
  fold_left record_result toolResults st.

(** [db.update(generation).set({ type: 'final' }).where(eq(generation.id, g))] *)
Definition set_final (g : string) (rows : list generation) : list generation :=
  map (fun r => if String.eqb (id r) g then
                  {| id := id r; threadId := threadId r; parentId := parentId r;
                     type := Final; prompt := prompt r; code := code r;
                     imageData := imageData r |}
                else r) rows.

(** [lastGenerationId !== parentId] *)
Definition option_string_eqb (a b : option string) : bool :=
  match a, b with
  | Some x, Some y => String.eqb x y
  | None, None => true
  | _, _ => false
  end.

(** [if (lastGenerationId && lastGenerationId !== parentId)] retag. *)
Definition mark_final (parent : option string) (st : agent_state) : list generation :=
  match lastGenerationId st with
  | Some g =>
      if negb (String.eqb g "") && negb (option_string_eqb (Some g) parent)
      then set_final g (db st) else db st
  | None => db st
  end.

(** The generation table after a run: [lastGenerationId] starts at the given
    parent, each step's results are recorded, then the last one is retagged. *)
Definition run_generations (parent : option string) (db0 : list generation)
  (steps : list (list tool_result)) : list generation :=
  let st0 := {| db := db0; lastGenerationId := parent; drawn := 0 |} in
  mark_final parent (fold_left onStepFinish steps st0).

End Agent.

End Lineage.

(* ================================================================== *)
(** * Properties *)

Example circle_appends_one :
  length (elements (circle 10 10 5 None (new_DrawingContextImpl 512))) = 1%nat.
Proof. reflexivity. Qed.

Example path_nil_noop :
  path [] None (new_DrawingContextImpl 512) = new_DrawingContextImpl 512.
Proof. reflexivity. Qed.

(** ** Drawing operations *)

(** The shape of every method body: [layer()] increments the counter and
    touches nothing else; every other method keeps the counter and either
    appends one element tagged with the counter or leaves the list as is. *)
Lemma method_body_effect (m : method) (c : DrawingContext) :
  canvasSize (method_body m c) = canvasSize c /\
  currentLayer (method_body m c) =
    (match m with MLayer => S (currentLayer c) | _ => currentLayer c end) /\
  exists added,
    elements (method_body m c) = (elements c ++ added)%list /\
    (length added <= 1)%nat /\
    Forall (fun e => layer e = currentLayer c) added /\
    (m = MLayer -> added = []).
Proof.
  destruct m as [x y w h o | x y r o | x1 y1 x2 y2 x3 y3 o | x1 y1 x2 y2 o
                | points o | x y r a b o | str x y o |]; simpl;
    try (destruct points as [| p ps]; simpl);
    (split; [reflexivity | split; [reflexivity |]]);
    first
      [ solve [exists []; rewrite app_nil_r; repeat split; auto]
      | eexists; split; [reflexivity | repeat split;
          [simpl; lia | constructor; [reflexivity | constructor] | discriminate]] ].
Qed.

Lemma nth_error_set_nth {A} (l : list A) (n k : nat) (x : A) :
  nth_error (set_nth n x l) k =
    if Nat.eqb n k then (match nth_error l k with Some _ => Some x | None => None end)
    else nth_error l k.
Proof.
  revert n k. induction l as [| y l IH]; intros n k.
  - destruct n, k; simpl; try destruct (Nat.eqb _ _); reflexivity.
  - destruct n as [| n], k as [| k]; simpl; auto.
Qed.

Lemma length_set_nth {A} (l : list A) (n : nat) (x : A) :
  length (set_nth n x l) = length l.
Proof.
  revert n. induction l as [| y l IH]; intros [| n]; simpl; auto.
Qed.

(** C8. A method call on a context object returns the same object ([this])
    and changes no other object; a fresh context starts at layer 0 with no
    element; only [layer()] changes the counter, by adding one; every other
    method appends at most one element, tagged with the counter at the call,
    and leaves the elements already present untouched. *)
Theorem builder_methods_return_this (h : host) (l : loc) (c : DrawingContext)
  (m : method) (Hl : nth_error (heap h) l = Some c) :
  (forall size, currentLayer (new_DrawingContextImpl size) = 0%nat /\
                elements (new_DrawingContextImpl size) = []) /\
  invoke h l m = Some (VObj l, {| heap := set_nth l (method_body m c) (heap h);
                                  globals := globals h |}) /\
  nth_error (set_nth l (method_body m c) (heap h)) l = Some (method_body m c) /\
  (forall k, k <> l ->
     nth_error (set_nth l (method_body m c) (heap h)) k = nth_error (heap h) k) /\
  currentLayer (method_body m c) =
    (match m with MLayer => S (currentLayer c) | _ => currentLayer c end) /\
  (currentLayer c <= currentLayer (method_body m c))%nat /\
  exists added,
    elements (method_body m c) = (elements c ++ added)%list /\
    (length added <= 1)%nat /\
    Forall (fun e => layer e = currentLayer c) added /\
    (m = MLayer -> added = []).
Proof.
  destruct (method_body_effect m c) as (_ & Hcur & Hadd).
  split; [intros; split; reflexivity |].
  split; [unfold invoke; rewrite Hl; reflexivity |].
  split; [rewrite nth_error_set_nth, Nat.eqb_refl, Hl; reflexivity |].
  split.
  { intros k Hk. rewrite nth_error_set_nth.
    destruct (Nat.eqb l k) eqn:E; [apply Nat.eqb_eq in E; congruence | reflexivity]. }
  split; [exact Hcur |].
  split; [rewrite Hcur; destruct m; lia | exact Hadd].
Qed.

Lemma builder_methods_return_this_witness :
  nth_error (heap {| heap := [new_DrawingContextImpl 512]; globals := [] |}) 0
    = Some (new_DrawingContextImpl 512) /\
  invoke {| heap := [new_DrawingContextImpl 512]; globals := [] |} 0 MLayer
    = Some (VObj 0, {| heap := [next_layer (new_DrawingContextImpl 512)];
                       globals := [] |}).
Proof.
  split; [reflexivity |].
  destruct (builder_methods_return_this
              {| heap := [new_DrawingContextImpl 512]; globals := [] |} 0
              (new_DrawingContextImpl 512) MLayer eq_refl) as (_ & H & _).
  exact H.
Defined.

(** C6 (amended). Omitted style fields default per operation:
    [rect], [circle], [triangle], [path] and [arc] take fill [transparent],
    stroke [none], stroke width 0 and opacity 1 (corner radius 0, [closed]
    false); [text] takes fill [#000], font [Arial], size 16, weight 400 and
    opacity 1; [line] without options takes stroke [#000], width 1, and
    opacity 1 when omitted. *)
Theorem style_defaults :
  base_style None = mkShapeStyle "transparent" "none" 0 1 /\
  (forall s sw op, st_fill (base_style (Some (mkBaseOpts None s sw op))) = "transparent") /\
  (forall f sw op, st_stroke (base_style (Some (mkBaseOpts f None sw op))) = "none") /\
  (forall f s op, st_strokeWidth (base_style (Some (mkBaseOpts f s None op))) = 0%R) /\
  (forall f s sw, st_opacity (base_style (Some (mkBaseOpts f s sw None))) = 1%R) /\
  (forall o, rect_style o = base_style (option_map ro_base o)) /\
  (forall o, path_style o = base_style (option_map po_base o)) /\
  rect_borderRadius None = 0%R /\
  (forall b, rect_borderRadius (Some (mkRectOpts b None)) = 0%R) /\
  path_closed None = false /\
  (forall b, path_closed (Some (mkPathOpts b None)) = false) /\
  text_style None = mkTextStyle "#000" "Arial" 16 400 1 /\
  (forall ft sz w op, ts_fill (text_style (Some (mkTextOpts None ft sz w op))) = "#000") /\
  (forall f sz w op, ts_font (text_style (Some (mkTextOpts f None sz w op))) = "Arial") /\
  (forall f ft w op, ts_size (text_style (Some (mkTextOpts f ft None w op))) = 16%R) /\
  (forall f ft sz op, ts_weight (text_style (Some (mkTextOpts f ft sz None op))) = 400%R) /\
  (forall f ft sz w, ts_opacity (text_style (Some (mkTextOpts f ft sz w None))) = 1%R) /\
  line_style None = mkLineStyle "#000" 1 1 /\
  (forall s w, ls_opacity (line_style (Some (mkLineOpts s w None))) = 1%R).
Proof.
  repeat split.
Qed.

(** C6 (counterexample). [text] without options fills with [#000], not
    [transparent]; [line] without options strokes [#000] with width 1, not
    [none] with width 0. *)
Lemma text_and_line_defaults_differ :
  ts_fill (text_style None) <> "transparent" /\
  ls_stroke (line_style None) <> "none" /\
  ls_width (line_style None) <> 0%R.
Proof.
  simpl. split; [discriminate | split; [discriminate | exact R1_neq_R0]].
Qed.

(** C7. [arc] appends a [<path>] whose [d] is the wedge
    [M center L p(start) A r,r 0 large,sweep p(end) Z], where
    [p(t) = (x + r cos(t pi/180), y + r sin(t pi/180))]; the large-arc flag is
    1 exactly when [|end - start| > 180] (else 0), the sweep flag 1 exactly
    when [end > start] (else 0); angle 0 points right, angle 90 down. *)
Theorem arc_is_pie_wedge (x y radius startAngle endAngle : R)
  (opts : option ShapeOpts) (c : DrawingContext) :
  elements (arc x y radius startAngle endAngle opts c) =
    (elements c ++ [{| layer := currentLayer c;
                       svg := path_el (arc_d x y radius startAngle endAngle)
                                      (base_style opts) |}])%list /\
  arc_d x y radius startAngle endAngle =
    [PStr "M "; PNum x; PStr ","; PNum y;
     PStr " L "; PNum (x + radius * cos (startAngle * PI / 180));
     PStr ","; PNum (y + radius * sin (startAngle * PI / 180));
     PStr " A "; PNum radius; PStr ","; PNum radius; PStr " 0 ";
     PNum (largeArcFlag startAngle endAngle); PStr ",";
     PNum (sweepFlag startAngle endAngle); PStr " ";
     PNum (x + radius * cos (endAngle * PI / 180)); PStr ",";
     PNum (y + radius * sin (endAngle * PI / 180)); PStr " Z"] /\
  (largeArcFlag startAngle endAngle = 1%R <-> (180 < Rabs (endAngle - startAngle))%R) /\
  (largeArcFlag startAngle endAngle = 0%R <-> ~ (180 < Rabs (endAngle - startAngle))%R) /\
  (sweepFlag startAngle endAngle = 1%R <-> (startAngle < endAngle)%R) /\
  (sweepFlag startAngle endAngle = 0%R <-> ~ (startAngle < endAngle)%R) /\
  arc_point x y radius 0 = ((x + radius)%R, y) /\
  arc_point x y radius 90 = (x, (y + radius)%R).
Proof.
  split; [reflexivity |].
  split; [reflexivity |].
  split; [unfold largeArcFlag; destruct (Rlt_dec _ _); split; intro; lra |].
  split; [unfold largeArcFlag; destruct (Rlt_dec _ _); split; intro; lra |].
  split; [unfold sweepFlag; destruct (Rlt_dec _ _); split; intro; lra |].
  split; [unfold sweepFlag; destruct (Rlt_dec _ _); split; intro; lra |].
  unfold arc_point, deg_to_rad. split.
  - replace (0 * PI / 180)%R with 0%R by field.
    rewrite cos_0, sin_0. f_equal; ring.
  - replace (90 * PI / 180)%R with (PI / 2)%R by field.
    rewrite cos_PI2, sin_PI2. f_equal; ring.
Qed.

(** ** Render order *)

Definition layer_le (a b : Element) : Prop := (layer a <= layer b)%nat.

Lemma compare_layers_le (a b : Element) :
  (compare_layers a b <=? 0)%Z = Nat.leb (layer a) (layer b).
Proof.
  unfold compare_layers.
  destruct (Nat.leb (layer a) (layer b)) eqn:E.
  - apply Nat.leb_le in E. apply Z.leb_le. lia.
  - apply Nat.leb_gt in E. apply Z.leb_gt. lia.
Qed.

Lemma insert_by_layer_perm (e : Element) (l : list Element) :
  Permutation (insert_by_layer e l) (e :: l).
Proof.
  induction l as [| e' l IH]; simpl; [reflexivity |].
  destruct (compare_layers e e' <=? 0)%Z; [reflexivity |].
  rewrite IH. apply perm_swap.
Qed.

Lemma sort_by_layer_perm (l : list Element) : Permutation (sort_by_layer l) l.
Proof.
  induction l as [| e l IH]; simpl; [reflexivity |].
  rewrite insert_by_layer_perm. constructor. exact IH.
Qed.

Lemma insert_by_layer_sorted (e : Element) (l : list Element) :
  Sorted layer_le l -> Sorted layer_le (insert_by_layer e l).
Proof.
  induction 1 as [| e' l Hs IH Hhd]; simpl.
  - repeat constructor.
  - rewrite compare_layers_le.
    destruct (Nat.leb (layer e) (layer e')) eqn:E.
    + apply Nat.leb_le in E. constructor; [constructor; assumption | constructor; exact E].
    + apply Nat.leb_gt in E. constructor; [exact IH |].
      destruct l as [| e'' l]; simpl.
      * constructor. unfold layer_le. lia.
      * inversion Hhd; subst. rewrite compare_layers_le.
        destruct (Nat.leb (layer e) (layer e'')); constructor; unfold layer_le in *; lia.
Qed.

Lemma sort_by_layer_sorted (l : list Element) : Sorted layer_le (sort_by_layer l).
Proof.
  induction l; simpl; [constructor | apply insert_by_layer_sorted; assumption].
Qed.

Definition on_layer (n : nat) (e : Element) : bool := Nat.eqb (layer e) n.

Lemma filter_insert_by_layer (n : nat) (e : Element) (l : list Element) :
  filter (on_layer n) (insert_by_layer e l) =
    if on_layer n e then e :: filter (on_layer n) l else filter (on_layer n) l.
Proof.
  induction l as [| e' l IH]; simpl; [reflexivity |].
  rewrite compare_layers_le.
  destruct (Nat.leb (layer e) (layer e')) eqn:E; [reflexivity |].
  apply Nat.leb_gt in E. simpl. rewrite IH. unfold on_layer.
  destruct (Nat.eqb (layer e') n) eqn:E1, (Nat.eqb (layer e) n) eqn:E2; try reflexivity.
  apply Nat.eqb_eq in E1. apply Nat.eqb_eq in E2. lia.
Qed.

Lemma filter_sort_by_layer (n : nat) (l : list Element) :
  filter (on_layer n) (sort_by_layer l) = filter (on_layer n) l.
Proof.
  induction l as [| e l IH]; simpl; [reflexivity |].
  rewrite filter_insert_by_layer, IH. reflexivity.
Qed.

Example sort_two_layers :
  map layer (sort_by_layer [mkElement 1 []; mkElement 0 [PStr "a"]; mkElement 0 [PStr "b"]])
  = [0; 0; 1]%nat.
Proof. reflexivity. Qed.

(** C3. [toSVG] emits the elements of [sort_by_layer]: a permutation of the
    appended elements in which the layers never decrease (every element of a
    lower layer precedes every element of a higher one) and the elements of
    each layer appear in their insertion order. *)
Theorem toSVG_stable_layer_order (c : DrawingContext) :
  let sorted := sort_by_layer (elements c) in
  toSVG c =
    ([PStr ("<svg width=" ++ dq); PNum (canvasSize c); PStr (dq ++ " height=" ++ dq);
      PNum (canvasSize c);
      PStr (dq ++ " xmlns=" ++ dq ++ "http://www.w3.org/2000/svg" ++ dq ++ ">" ++ newline)]
     ++ join_nl (map svg sorted) ++ [PStr (newline ++ "</svg>")])%list /\
  Permutation sorted (elements c) /\
  StronglySorted layer_le sorted /\
  (forall n, filter (on_layer n) sorted = filter (on_layer n) (elements c)).
Proof.
  intros sorted. split; [reflexivity |].
  split; [apply sort_by_layer_perm |].
  split; [| intro n; apply filter_sort_by_layer].
  apply Sorted_StronglySorted; [unfold Relations_1.Transitive, layer_le; intros; lia |].
  apply sort_by_layer_sorted.
Qed.

(** ** Escaping and interpolation *)

Lemma string_app_assoc (a b c : string) : (a ++ b) ++ c = a ++ (b ++ c).
Proof. induction a; simpl; [reflexivity | rewrite IHa; reflexivity]. Qed.

Lemma render_pieces_app (show : R -> string) (p1 p2 : list piece) :
  render_pieces show (p1 ++ p2)%list = render_pieces show p1 ++ render_pieces show p2.
Proof.
  induction p1 as [| [s | n] p1 IH]; simpl; try rewrite IH, string_app_assoc; reflexivity.
Qed.

(** The entity escaping the claim describes, one character at a time. *)
Definition escape_char (a : ascii) : string :=
  if Ascii.eqb a "&" then "&amp;"
  else if Ascii.eqb a "<" then "&lt;"
  else if Ascii.eqb a ">" then "&gt;"
  else String a EmptyString.

Fixpoint escape_per_char (s : string) : string :=
  match s with
  | EmptyString => EmptyString
  | String a s' => escape_char a ++ escape_per_char s'
  end.

Lemma escape_text_cons (a : ascii) (s : string) :
  escape_text (String a s) = escape_char a ++ escape_text s.
Proof.
  unfold escape_text, escape_char.
  destruct (Ascii.eqb a "&") eqn:E1.
  { apply Ascii.eqb_eq in E1. subst. reflexivity. }
  destruct (Ascii.eqb a "<") eqn:E2.
  { apply Ascii.eqb_eq in E2. subst. reflexivity. }
  destruct (Ascii.eqb a ">") eqn:E3.
  { apply Ascii.eqb_eq in E3. subst. reflexivity. }
  simpl. rewrite E1. simpl. rewrite E2. simpl. rewrite E3. reflexivity.
Qed.

Lemma escape_text_spec (s : string) : escape_text s = escape_per_char s.
Proof.
  induction s as [| a s IH]; [reflexivity |].
  rewrite escape_text_cons, IH. reflexivity.
Qed.

Example escape_text_example : escape_text "a<b>&c" = "a&lt;b&gt;&amp;c".
Proof. reflexivity. Qed.

(** [name="s"] occurs, with the string [s] as it is, in a template. *)
Definition has_attr (name s : string) (ps : list piece) : Prop :=
  exists p1 p2, ps = (p1 ++ attr name (PStr s) ++ p2)%list.

Lemma has_attr_here (name s : string) (p2 : list piece) :
  has_attr name s (attr name (PStr s) ++ p2)%list.
Proof. exists [], p2. reflexivity. Qed.

Lemma has_attr_cons (name s : string) (x : piece) (ps : list piece) :
  has_attr name s ps -> has_attr name s (x :: ps).
Proof. intros (p1 & p2 & ->). exists (x :: p1), p2. reflexivity. Qed.

Lemma has_attr_render (show : R -> string) (name s : string) (ps : list piece) :
  has_attr name s ps ->
  exists before after,
    render_pieces show ps = before ++ " " ++ name ++ "=" ++ dq ++ s ++ dq ++ after.
Proof.
  intros (p1 & p2 & ->).
  exists (render_pieces show p1), (render_pieces show p2).
  rewrite !render_pieces_app. simpl. rewrite !string_app_assoc. reflexivity.
Qed.

Ltac find_attr :=
  simpl; repeat (first [apply has_attr_here | apply has_attr_cons]).

Lemma path_el_attrs (d : list piece) (st : ShapeStyle) :
  has_attr "fill" (st_fill st) (path_el d st) /\
  has_attr "stroke" (st_stroke st) (path_el d st).
Proof.
  unfold path_el. split.
  - exists ([PStr "<path"] ++ attrs "d" d)%list,
      (attr "stroke" (PStr (st_stroke st)) ++ attr "stroke-width" (PNum (st_strokeWidth st))
       ++ attr "opacity" (PNum (st_opacity st)) ++ [PStr " />"])%list.
    rewrite <- !app_assoc. reflexivity.
  - exists ([PStr "<path"] ++ attrs "d" d ++ attr "fill" (PStr (st_fill st)))%list,
      (attr "stroke-width" (PNum (st_strokeWidth st))
       ++ attr "opacity" (PNum (st_opacity st)) ++ [PStr " />"])%list.
    rewrite <- !app_assoc. reflexivity.
Qed.

(** [name="s"] occurs in the markup printed from a template, whatever the
    printer of numbers. *)
Definition attr_in_markup (name s : string) (ps : list piece) : Prop :=
  forall show, exists before after,
    render_pieces show ps = before ++ " " ++ name ++ "=" ++ dq ++ s ++ dq ++ after.

Lemma has_attr_in_markup (name s : string) (ps : list piece) :
  has_attr name s ps -> attr_in_markup name s ps.
Proof. intros H show. apply has_attr_render. exact H. Qed.

(** C10. Text content goes through [escape_text], which replaces each [&],
    [<] and [>] by its entity and keeps every other character; the style
    strings (fill, stroke, font family) of every operation are printed into
    the markup as they are. *)
Theorem text_escaped_styles_verbatim :
  (forall content, escape_text content = escape_per_char content) /\
  (forall content x y o, exists p1,
     text_svg content x y o = (p1 ++ [PStr ">"; PStr (escape_text content); PStr "</text>"])%list) /\
  (forall f s sw op x y w h br x3 y3 p ps cl a b,
     let bo := mkBaseOpts (Some f) (Some s) sw op in
     attr_in_markup "fill" f (rect_svg x y w h (Some (mkRectOpts bo br))) /\
     attr_in_markup "stroke" s (rect_svg x y w h (Some (mkRectOpts bo br))) /\
     attr_in_markup "fill" f (circle_svg x y w (Some bo)) /\
     attr_in_markup "stroke" s (circle_svg x y w (Some bo)) /\
     attr_in_markup "fill" f (triangle_svg x y w h x3 y3 (Some bo)) /\
     attr_in_markup "stroke" s (triangle_svg x y w h x3 y3 (Some bo)) /\
     attr_in_markup "fill" f
       (path_el (path_d p ps (path_closed (Some (mkPathOpts bo cl))))
                (path_style (Some (mkPathOpts bo cl)))) /\
     attr_in_markup "stroke" s
       (path_el (path_d p ps (path_closed (Some (mkPathOpts bo cl))))
                (path_style (Some (mkPathOpts bo cl)))) /\
     attr_in_markup "fill" f (path_el (arc_d x y w a b) (base_style (Some bo))) /\
     attr_in_markup "stroke" s (path_el (arc_d x y w a b) (base_style (Some bo)))) /\
  (forall s w op x1 y1 x2 y2,
     attr_in_markup "stroke" s (line_svg x1 y1 x2 y2 (Some (mkLineOpts s w op)))) /\
  (forall f ft sz wt op content x y,
     let o := Some (mkTextOpts (Some f) (Some ft) sz wt op) in
     attr_in_markup "fill" f (text_svg content x y o) /\
     attr_in_markup "font-family" ft (text_svg content x y o)).
Proof.
  split; [exact escape_text_spec |].
  split.
  { intros content x y o. unfold text_svg.
    eexists. rewrite !app_assoc. reflexivity. }
  split.
  { intros f s sw op x y w h br x3 y3 p ps cl a b bo.
    repeat split; apply has_attr_in_markup;
      first [ apply (path_el_attrs _ (path_style (Some (mkPathOpts bo cl))))
            | apply (path_el_attrs _ (base_style (Some bo)))
            | unfold rect_svg, circle_svg, triangle_svg; find_attr ]. }
  split.
  { intros. apply has_attr_in_markup. unfold line_svg. find_attr. }
  intros. split; apply has_attr_in_markup; unfold text_svg; find_attr.
Qed.

(** ** Generation lineage *)

Module LineageFacts.
Import Lineage.

Definition is_executeCode (r : tool_result) : bool :=
  String.eqb (toolName r) "executeCode".

Lemma fold_onStepFinish (nanoid : nat -> string) (tid instr : string)
  (steps : list (list tool_result)) (st : agent_state) :
  fold_left (onStepFinish nanoid tid instr) steps st =
    fold_left (record_result nanoid tid instr) (concat steps) st.
Proof.
  revert st. induction steps as [| rs steps IH]; intro st; simpl; [reflexivity |].
  rewrite fold_left_app. apply IH.
Qed.

Lemma fold_record_result_filter (nanoid : nat -> string) (tid instr : string)
  (rs : list tool_result) (st : agent_state) :
  fold_left (record_result nanoid tid instr) rs st =
    fold_left (record_result nanoid tid instr) (filter is_executeCode rs) st.
Proof.
  revert st. induction rs as [| r rs IH]; intro st; simpl; [reflexivity |].
  unfold is_executeCode. destruct (String.eqb (toolName r) "executeCode") eqn:E.
  - simpl. apply IH.
  - rewrite IH. unfold record_result at 2. rewrite E. reflexivity.
Qed.

Lemma set_final_fresh (g : string) (rows : list generation) :
  ~ In g (map id rows) -> set_final g rows = rows.
Proof.
  induction rows as [| r rows IH]; intro Hg; simpl; [reflexivity |].
  simpl in Hg. destruct (String.eqb (id r) g) eqn:E.
  - apply String.eqb_eq in E. exfalso. apply Hg. left. exact E.
  - rewrite IH; [reflexivity | intro; apply Hg; right; assumption].
Qed.

Lemma filter_In_true (r : tool_result) (rs : list tool_result) :
  In r (filter is_executeCode rs) -> is_executeCode r = true.
Proof. intro H. apply filter_In in H. apply H. Qed.

(** C9. A run whose steps hold three [executeCode] results records three
    rows after the existing ones: the first with the supplied parent, each
    later one with the previous row's id as parent; the first two stay
    [debug], the last is retagged [final].  Ids drawn from [nanoid] are
    assumed fresh: the last one is non-empty and differs from the two others,
    from the parent and from every id already in the table. *)
Theorem three_calls_lineage (nanoid : nat -> string) (tid instr : string)
  (parent : option string) (db0 : list generation)
  (steps : list (list tool_result)) (r1 r2 r3 : tool_result)
  (Hcalls : filter is_executeCode (concat steps) = [r1; r2; r3])
  (Hne : nanoid 2 <> "") (Hd0 : nanoid 2 <> nanoid 0) (Hd1 : nanoid 2 <> nanoid 1)
  (Hparent : parent <> Some (nanoid 2)) (Hfresh : ~ In (nanoid 2) (map id db0)) :
  run_generations nanoid tid instr parent db0 steps =
    (db0 ++
     [{| id := nanoid 0; threadId := tid; parentId := parent; type := Debug;
         prompt := instr; code := output_code r1; imageData := output_imageData r1 |};
      {| id := nanoid 1; threadId := tid; parentId := Some (nanoid 0); type := Debug;
         prompt := instr; code := output_code r2; imageData := output_imageData r2 |};
      {| id := nanoid 2; threadId := tid; parentId := Some (nanoid 1); type := Final;
         prompt := instr; code := output_code r3; imageData := output_imageData r3 |}])%list.
Proof.
  assert (E1 : is_executeCode r1 = true)
    by (apply (filter_In_true r1 (concat steps)); rewrite Hcalls; simpl; auto).
  assert (E2 : is_executeCode r2 = true)
    by (apply (filter_In_true r2 (concat steps)); rewrite Hcalls; simpl; auto).
  assert (E3 : is_executeCode r3 = true)
    by (apply (filter_In_true r3 (concat steps)); rewrite Hcalls; simpl; auto).
  unfold is_executeCode in E1, E2, E3.
  unfold run_generations.
  rewrite fold_onStepFinish, fold_record_result_filter.
  rewrite Hcalls. simpl. unfold record_result. rewrite E1, E2, E3. simpl.
  unfold mark_final. cbn [lastGenerationId db].
  assert (Hg : String.eqb (nanoid 2) "" = false) by (apply String.eqb_neq; exact Hne).
  assert (Hp : option_string_eqb (Some (nanoid 2)) parent = false).
  { destruct parent as [p |]; simpl; [| reflexivity].
    apply String.eqb_neq. intro Heq. apply Hparent. rewrite Heq. reflexivity. }
  rewrite Hg, Hp. simpl.
  rewrite <- !app_assoc. unfold set_final. rewrite map_app. fold (set_final (nanoid 2) db0).
  rewrite set_final_fresh by exact Hfresh. simpl.
  assert (F0 : String.eqb (nanoid 0) (nanoid 2) = false)
    by (apply String.eqb_neq; intro; apply Hd0; symmetry; assumption).
  assert (F1 : String.eqb (nanoid 1) (nanoid 2) = false)
    by (apply String.eqb_neq; intro; apply Hd1; symmetry; assumption).
  rewrite F0, F1, String.eqb_refl. reflexivity.
Qed.

Definition ids_abc (n : nat) : string :=
  match n with 0 => "a" | 1 => "b" | _ => "c" end.

Definition exec_result (c : string) : tool_result :=
  {| toolName := "executeCode"; output_code := c; output_imageData := "png" |}.

Lemma three_calls_lineage_witness :
  filter is_executeCode
    (concat [[exec_result "v1"]; []; [exec_result "v2"; exec_result "v3"]])
    = [exec_result "v1"; exec_result "v2"; exec_result "v3"] /\
  run_generations ids_abc "t" "draw" (Some "p") []
    [[exec_result "v1"]; []; [exec_result "v2"; exec_result "v3"]] =
  [{| id := "a"; threadId := "t"; parentId := Some "p"; type := Debug;
      prompt := "draw"; code := "v1"; imageData := "png" |};
   {| id := "b"; threadId := "t"; parentId := Some "a"; type := Debug;
      prompt := "draw"; code := "v2"; imageData := "png" |};
   {| id := "c"; threadId := "t"; parentId := Some "b"; type := Final;
      prompt := "draw"; code := "v3"; imageData := "png" |}].
Proof.
  split; [reflexivity |].
  apply (three_calls_lineage ids_abc "t" "draw" (Some "p") []
           [[exec_result "v1"]; []; [exec_result "v2"; exec_result "v3"]]
           (exec_result "v1") (exec_result "v2") (exec_result "v3"));
    simpl; try discriminate; auto.
Defined.

End LineageFacts.

(** ** The SVG grows with every appended element *)

Lemma list_sum_perm (l l' : list nat) : Permutation l l' -> list_sum l = list_sum l'.
Proof. induction 1; simpl; lia. Qed.

Lemma length_join_nl (xs : list (list piece)) :
  length (join_nl xs) = (list_sum (map (@length piece) xs) + pred (length xs))%nat.
Proof.
  induction xs as [| x xs IH]; [reflexivity |].
  destruct xs as [| y xs]; [simpl; lia |].
  change (join_nl (x :: y :: xs)) with (x ++ PStr newline :: join_nl (y :: xs))%list.
  rewrite length_app. cbn [length]. rewrite IH.
  cbn [map list_sum fold_right length pred]. lia.
Qed.

Lemma toSVG_length (c : DrawingContext) :
  length (toSVG c) =
    (6 + list_sum (map (fun e => length (svg e)) (elements c))
       + pred (length (elements c)))%nat.
Proof.
  unfold toSVG. rewrite !length_app, length_join_nl, map_map, length_map.
  rewrite (Permutation_length (sort_by_layer_perm (elements c))).
  rewrite (list_sum_perm _ _ (Permutation_map (fun e => length (svg e))
                                (sort_by_layer_perm (elements c)))).
  simpl. lia.
Qed.

Lemma toSVG_push_svg (s : list piece) (c : DrawingContext) :
  s <> [] -> toSVG (push_svg s c) <> toSVG c.
Proof.
  intros Hs H. apply (f_equal (@length piece)) in H. rewrite !toSVG_length in H.
  cbn [push_svg elements] in H. rewrite map_app, list_sum_app, length_app in H.
  cbn [map list_sum svg length] in H.
  destruct s as [| p s]; [congruence |]. cbn [length] in H.
  destruct (elements c); simpl in H; lia.
Qed.

(** C1 (amended). [circle] has no guard on the radius: for every radius,
    zero and negative ones included, and every state of the context, it
    appends exactly one [<circle>] element, its [r] written as given, tagged
    with the current layer, and the SVG handed to the rasterizer differs from
    the one before the call; [path] with no point returns the context
    unchanged. *)
Theorem circle_always_appends (x y radius : R) (opts : option ShapeOpts)
  (c : DrawingContext) :
  elements (circle x y radius opts c) =
    (elements c ++ [{| layer := currentLayer c; svg := circle_svg x y radius opts |}])%list /\
  currentLayer (circle x y radius opts c) = currentLayer c /\
  toSVG (circle x y radius opts c) <> toSVG c /\
  (forall popts, path [] popts c = c /\ toSVG (path [] popts c) = toSVG c).
Proof.
  split; [reflexivity | split; [reflexivity | split]].
  - apply toSVG_push_svg. unfold circle_svg. discriminate.
  - intro popts. split; reflexivity.
Qed.

(** C1 (counterexample). [circle(256, 256, 0)] on a fresh context appends a
    primitive, and the SVG handed to the renderer differs from the one of the
    empty context. *)
Lemma circle_zero_radius_not_noop :
  let c := new_DrawingContextImpl 512 in
  elements (circle 256 256 0 None c) <> elements c /\
  toSVG (circle 256 256 0 None c) <> toSVG c.
Proof.
  simpl. split.
  - discriminate.
  - intro H. apply (f_equal (@length piece)) in H. simpl in H. discriminate.
Qed.

(** ** Executing code *)

Lemma set_nth_last {A} (l : list A) (x y : A) :
  set_nth (length l) y (l ++ [x]) = (l ++ [y])%list.
Proof. induction l as [| z l IH]; simpl; [reflexivity | rewrite IH; reflexivity]. Qed.

Lemma nth_error_last {A} (l : list A) (x : A) : nth_error (l ++ [x]) (length l) = Some x.
Proof. rewrite nth_error_app2, Nat.sub_diag by lia. reflexivity. Qed.


(** A method chain on an allocated object runs the methods on it, in order,
    and touches nothing else. *)
Lemma call_chain_obj (ms : list method) :
  forall (src : string) (l : loc) (h : host) (c : DrawingContext),
  nth_error (heap h) l = Some c ->
  exists h', call_chain src (VObj l) ms h = Normal h' /\
    nth_error (heap h') l = Some (run_methods ms c) /\
    globals h' = globals h /\
    (forall k, k <> l -> nth_error (heap h') k = nth_error (heap h) k).
Proof.
  induction ms as [| m ms IH]; intros src l h c Hc.
  - exists h. repeat split; auto.
  - cbn [call_chain]. unfold invoke. rewrite Hc.
    destruct (IH (src ++ "." ++ method_name m ++ "(...)") l
                 {| heap := set_nth l (method_body m c) (heap h); globals := globals h |}
                 (method_body m c)) as (h' & E & Hl & Hg & Ho).
    { cbn [heap]. rewrite nth_error_set_nth, Nat.eqb_refl, Hc. reflexivity. }
    exists h'. split; [exact E | split; [exact Hl | split; [exact Hg |]]].
    intros k Hk. rewrite (Ho k Hk). cbn [heap]. rewrite nth_error_set_nth.
    destruct (Nat.eqb l k) eqn:Ek; [apply Nat.eqb_eq in Ek; congruence | reflexivity].
Qed.

Definition fill_lt : RectOpts := mkRectOpts (mkBaseOpts (Some "<") None None None) None.

Definition code_rect_lt : code := Parsed [SCall ECtx [MRect 0 0 10 10 (Some fill_lt)]].

(** C4 (amended). [executeCode] rejects with the very value the code threw,
    or with a SyntaxError carrying the parser's message, without rendering;
    when the code runs to completion it settles as [ctx.toPNG()] does, with
    the rasterizer's PNG of the context's SVG or with the rasterizer's
    rejection.  The tool of [imageEditorAgent] turns a rejection, either kind,
    into [{ success: false, error }] with the error's own message, no image
    and [lastResult] unchanged, and a PNG into [{ success: true, imageData }].
    Style strings reach the SVG verbatim: after [rect(0, 0, 10, 10, { fill:
    '<' })] the document has a raw [<] in an attribute value, which XML
    forbids, and with a rasterizer that refuses such a document the code
    [ctx.rect(0, 0, 10, 10, { fill: '<' })] runs to completion and
    [executeCode] still rejects. *)
Theorem executeCode_error_result (sharp : rasterizer) (c : code) (size : R)
  (lastResult : option (code * image_data)) (h : host) :
  (let (ctx, h1) := createDrawingContext size h in
   match c with
   | Unparsable msg =>
       executeCode sharp c size h = (Rejected (JsError "SyntaxError" msg), h1) /\
       tool_execute sharp c size lastResult h = (ToolFailure msg, lastResult, h1)
   | Parsed body =>
       match exec_block ctx body h1 with
       | Threw t h2 =>
           executeCode sharp c size h = (Rejected t, h2) /\
           tool_execute sharp c size lastResult h =
             (ToolFailure (error_message t), lastResult, h2)
       | Normal h2 =>
           executeCode sharp c size h =
             (sharp (toSVG (nth ctx (heap h2) (new_DrawingContextImpl size)))
                (canvasSize (nth ctx (heap h2) (new_DrawingContextImpl size))), h2) /\
           tool_execute sharp c size lastResult h =
             match toPNG_at sharp ctx size h2 with
             | Resolved p => (ToolSuccess (Base64 p), Some (c, Base64 p), h2)
             | Rejected t => (ToolFailure (error_message t), lastResult, h2)
             end
       end
   end) /\
  (forall name msg, error_message (JsError name msg) = msg) /\
  (forall s, error_message (JsString s) = s) /\
  attribute_values_ok (toSVG (rect 0 0 10 10 (Some fill_lt) (new_DrawingContextImpl size)))
    = false /\
  ((forall svg n, attribute_values_ok svg = false -> exists t, sharp svg n = Rejected t) ->
   exists h2 t,
     exec_block (length (heap h)) [SCall ECtx [MRect 0 0 10 10 (Some fill_lt)]]
       (snd (createDrawingContext size h)) = Normal h2 /\
     executeCode sharp code_rect_lt size h = (Rejected t, h2)).
Proof.
  split; [| split; [reflexivity | split; [reflexivity | split; [reflexivity |]]]].
  2: { intro Hsharp.
       destruct (call_chain_obj [MRect 0 0 10 10 (Some fill_lt)] "ctx" (length (heap h))
                   (snd (createDrawingContext size h)) (new_DrawingContextImpl size))
         as (h2 & E & Hl & _ & _).
       { apply nth_error_last. }
       destruct (Hsharp (toSVG (rect 0 0 10 10 (Some fill_lt) (new_DrawingContextImpl size)))
                        size eq_refl) as [t Ht].
       exists h2, t.
       assert (Eb : exec_block (length (heap h)) [SCall ECtx [MRect 0 0 10 10 (Some fill_lt)]]
                      (snd (createDrawingContext size h)) = Normal h2).
       { cbn [exec_block exec_stmt eval_expr expr_text]. rewrite E. reflexivity. }
       split; [exact Eb |].
       unfold executeCode, code_rect_lt. cbn [createDrawingContext fst snd] in Eb |- *.
       rewrite Eb. unfold toPNG_at, toPNG. rewrite (nth_error_nth _ _ _ Hl).
       exact (f_equal (fun p => (p, h2)) Ht). }
  unfold tool_execute, executeCode. simpl.
  destruct c as [body | msg]; [| split; reflexivity].
  destruct (exec_block _ body _) as [h2 | t h2]; [| split; reflexivity].
  split; [reflexivity |]. unfold toPNG_at, toPNG. simpl.
  destruct (sharp _ _); reflexivity.
Qed.

Definition empty_host : host := {| heap := []; globals := [] |}.

(** C4 (counterexample). [ctx.rect(0, 0, 10, 10, { fill: '<' })] runs to
    completion, yet [executeCode] rejects: the style string lands verbatim in
    an attribute value, the SVG is not well-formed and sharp refuses it; the
    tool reports an error and no image. *)
Lemma executeCode_rejects_completed_code :
  let h1 := {| heap := [new_DrawingContextImpl 512]; globals := [] |} in
  let h2 := {| heap := [rect 0 0 10 10 (Some fill_lt) (new_DrawingContextImpl 512)];
               globals := [] |} in
  exec_block 0 [SCall ECtx [MRect 0 0 10 10 (Some fill_lt)]] h1 = Normal h2 /\
  executeCode sharp_xml code_rect_lt 512 empty_host =
    (Rejected (JsError "Error" "Input buffer has corrupt header"), h2) /\
  tool_execute sharp_xml code_rect_lt 512 None empty_host =
    (ToolFailure "Input buffer has corrupt header", None, h2).
Proof. split; [reflexivity | split; reflexivity]. Qed.

(** The modelled sharp refuses every document with a raw [<] in an
    attribute value. *)
Lemma sharp_xml_rejects (svg : list piece) (n : R) :
  attribute_values_ok svg = false -> exists t, sharp_xml svg n = Rejected t.
Proof. intro H. unfold sharp_xml. rewrite H. eexists. reflexivity. Qed.

















(* ================================================================== *)
(** * Further properties of the drawing context *)

Lemma invoke_returns_this (h : host) (l : loc) (m : method) (r : value) (h' : host) :
  invoke h l m = Some (r, h') -> r = VObj l.
Proof.
  unfold invoke. destruct (nth_error (heap h) l); intro E; [| discriminate].
  injection E as <- _. reflexivity.
Qed.

(** On an object, the source text of the receiver does not matter: every
    call returns the object itself. *)
Lemma call_chain_src (l : loc) (ms : list method) :
  forall (src src' : string) (h : host),
  call_chain src (VObj l) ms h = call_chain src' (VObj l) ms h.
Proof.
  induction ms as [| m ms IH]; intros src src' h; cbn [call_chain]; [reflexivity |].
  destruct (invoke h l m) as [[r h1] |] eqn:E; [| reflexivity].
  rewrite (invoke_returns_this _ _ _ _ _ E). apply IH.
Qed.

Lemma call_chain_app (src : string) (l : loc) (ms1 ms2 : list method) (h : host) :
  call_chain src (VObj l) (ms1 ++ ms2) h =
    match call_chain src (VObj l) ms1 h with
    | Normal h' => call_chain src (VObj l) ms2 h'
    | Threw t h' => Threw t h'
    end.
Proof.
  revert src h. induction ms1 as [| m ms1 IH]; intros src h; cbn [call_chain app];
    [reflexivity |].
  destruct (invoke h l m) as [[r h1] |] eqn:E; [| reflexivity].
  rewrite (invoke_returns_this _ _ _ _ _ E), IH.
  destruct (call_chain _ (VObj l) ms1 h1); [apply call_chain_src | reflexivity].
Qed.

(** Because every method returns [this], a chain [ctx.a(..).b(..)] does
    exactly what the separate statements [ctx.a(..); ctx.b(..)] do. *)
Theorem chained_calls_equal_separate_calls (ctx : loc) (ms1 ms2 : list method)
  (rest : list stmt) (h : host) :
  exec_block ctx (SCall ECtx (ms1 ++ ms2) :: rest) h =
    exec_block ctx (SCall ECtx ms1 :: SCall ECtx ms2 :: rest) h.
Proof.
  cbn [exec_block exec_stmt eval_expr]. rewrite call_chain_app.
  destruct (call_chain _ (VObj ctx) ms1 h); reflexivity.
Qed.

Lemma filter_on_layer_nonempty (n : nat) (s : list Element) :
  filter (on_layer n) s <> [] -> exists x, In x s /\ layer x = n.
Proof.
  intro H. destruct (filter (on_layer n) s) as [| x r] eqn:E; [congruence |].
  assert (Hx : In x (filter (on_layer n) s)) by (rewrite E; left; reflexivity).
  apply filter_In in Hx as [Hin Hl]. unfold on_layer in Hl.
  apply Nat.eqb_eq in Hl. exists x. auto.
Qed.

Lemma sorted_head_min (e : Element) (s : list Element) (x : Element) :
  StronglySorted layer_le (e :: s) -> In x (e :: s) -> (layer e <= layer x)%nat.
Proof.
  intros Hs [<- | Hin]; [lia |].
  apply StronglySorted_inv in Hs as [_ Hall].
  rewrite Forall_forall in Hall. exact (Hall x Hin).
Qed.

(** Two layer-sorted lists with the same elements, in the same order, on
    every layer are equal. *)
Lemma sorted_eq_by_layers (s1 s2 : list Element) :
  StronglySorted layer_le s1 -> StronglySorted layer_le s2 ->
  (forall n, filter (on_layer n) s1 = filter (on_layer n) s2) -> s1 = s2.
Proof.
  revert s2. induction s1 as [| e s1 IH]; intros s2 H1 H2 Hf.
  - destruct s2 as [| e2 s2]; [reflexivity | exfalso].
    specialize (Hf (layer e2)). cbn [filter] in Hf. unfold on_layer in Hf.
    rewrite Nat.eqb_refl in Hf. discriminate.
  - destruct s2 as [| e2 s2].
    { exfalso. specialize (Hf (layer e)). cbn [filter] in Hf. unfold on_layer in Hf.
      rewrite Nat.eqb_refl in Hf. discriminate. }
    assert (Hle1 : (layer e2 <= layer e)%nat).
    { assert (Hne : filter (on_layer (layer e)) (e2 :: s2) <> []).
      { rewrite <- Hf. cbn [filter]. unfold on_layer. rewrite Nat.eqb_refl. discriminate. }
      apply filter_on_layer_nonempty in Hne as [x [Hin Hx]].
      rewrite <- Hx. exact (sorted_head_min _ _ _ H2 Hin). }
    assert (Hle2 : (layer e <= layer e2)%nat).
    { assert (Hne : filter (on_layer (layer e2)) (e :: s1) <> []).
      { rewrite Hf. cbn [filter]. unfold on_layer. rewrite Nat.eqb_refl. discriminate. }
      apply filter_on_layer_nonempty in Hne as [x [Hin Hx]].
      rewrite <- Hx. exact (sorted_head_min _ _ _ H1 Hin). }
    assert (Hl : layer e2 = layer e) by lia.
    assert (He : e = e2 /\ filter (on_layer (layer e)) s1 = filter (on_layer (layer e)) s2).
    { specialize (Hf (layer e)). cbn [filter] in Hf. unfold on_layer in Hf.
      rewrite Hl, Nat.eqb_refl in Hf. injection Hf as -> Ht. auto. }
    destruct He as [<- Ht]. f_equal.
    apply IH.
    + apply StronglySorted_inv in H1. tauto.
    + apply StronglySorted_inv in H2. tauto.
    + intro n. destruct (Nat.eqb (layer e) n) eqn:En.
      * apply Nat.eqb_eq in En. subst n. exact Ht.
      * specialize (Hf n). cbn [filter] in Hf. unfold on_layer in Hf.
        rewrite En in Hf. exact Hf.
Qed.

Lemma sort_by_layer_strongly_sorted (l : list Element) :
  StronglySorted layer_le (sort_by_layer l).
Proof.
  apply Sorted_StronglySorted; [unfold Relations_1.Transitive, layer_le; intros; lia |].
  apply sort_by_layer_sorted.
Qed.

Lemma sort_by_layer_id (l : list Element) :
  StronglySorted layer_le l -> sort_by_layer l = l.
Proof.
  intro H. apply sorted_eq_by_layers; [apply sort_by_layer_strongly_sorted | exact H |].
  intro n. apply filter_sort_by_layer.
Qed.

Definition layers_in_order (c : DrawingContext) : Prop :=
  StronglySorted layer_le (elements c) /\
  Forall (fun e => (layer e <= currentLayer c)%nat) (elements c).

Lemma StronglySorted_snoc (l : list Element) (x : Element) :
  StronglySorted layer_le l -> Forall (fun e => layer_le e x) l ->
  StronglySorted layer_le (l ++ [x]).
Proof.
  induction l as [| a l IH]; intros Hs Hall; simpl.
  - repeat constructor.
  - apply StronglySorted_inv in Hs as [Hs Ha]. inversion Hall; subst.
    constructor; [apply IH; assumption |].
    apply Forall_app. split; [exact Ha | constructor; [assumption | constructor]].
Qed.

Lemma push_svg_in_order (s : list piece) (c : DrawingContext) :
  layers_in_order c -> layers_in_order (push_svg s c).
Proof.
  intros [Hs Hall]. unfold push_svg. split; simpl.
  - apply StronglySorted_snoc; [exact Hs |].
    eapply Forall_impl; [| exact Hall]. intros e He. unfold layer_le. simpl. exact He.
  - apply Forall_app. split; [exact Hall | constructor; [simpl; lia | constructor]].
Qed.

Lemma method_body_in_order (m : method) (c : DrawingContext) :
  layers_in_order c -> layers_in_order (method_body m c).
Proof.
  intro H. destruct m as [| | | | ps o | | |]; simpl; try (apply push_svg_in_order; exact H).
  - destruct ps; [exact H | apply push_svg_in_order; exact H].
  - destruct H as [Hs Hall]. split; [exact Hs |]. simpl.
    eapply Forall_impl; [| exact Hall]. simpl. intros; lia.
Qed.

Lemma run_methods_in_order (ms : list method) (c : DrawingContext) :
  layers_in_order c -> layers_in_order (run_methods ms c).
Proof.
  unfold run_methods. revert c. induction ms as [| m ms IH]; intros c H; simpl;
    [exact H | apply IH, method_body_in_order, H].
Qed.

Lemma run_methods_canvasSize (ms : list method) (c : DrawingContext) :
  canvasSize (run_methods ms c) = canvasSize c.
Proof.
  unfold run_methods. revert c. induction ms as [| m ms IH]; intro c; simpl; [reflexivity |].
  rewrite IH. destruct m as [| | | | ps o | | |]; try reflexivity.
  destruct ps; reflexivity.
Qed.

(** [layer()] only ever increments the layer counter, so the elements of a
    context built by method calls are already ordered by layer: the sort in
    [toSVG] never moves anything and the SVG lists the elements in call order. *)
Theorem toSVG_call_order (size : R) (ms : list method) :
  let c := run_methods ms (new_DrawingContextImpl size) in
  sort_by_layer (elements c) = elements c /\
  toSVG c =
    ([PStr ("<svg width=" ++ dq); PNum size; PStr (dq ++ " height=" ++ dq);
      PNum size;
      PStr (dq ++ " xmlns=" ++ dq ++ "http://www.w3.org/2000/svg" ++ dq ++ ">" ++ newline)]
     ++ join_nl (map svg (elements c)) ++ [PStr (newline ++ "</svg>")])%list.
Proof.
  intro c.
  assert (H : layers_in_order c).
  { apply run_methods_in_order. split; constructor. }
  assert (Hid : sort_by_layer (elements c) = elements c) by (apply sort_by_layer_id, H).
  assert (Hsz : canvasSize c = size) by apply run_methods_canvasSize.
  split; [exact Hid |]. unfold toSVG. rewrite Hid, Hsz. reflexivity.
Qed.

(** ** The text body is inert markup *)

(** What an XML reader does with the entities [escape_text] produces: it
    decodes [&amp;], [&lt;] and [&gt;] back to [&], [<] and [>]. *)
Fixpoint unescape (s : string) : string :=
  match s with
  | String "&" (String "a" (String "m" (String "p" (String ";" r)))) => String "&" (unescape r)
  | String "&" (String "l" (String "t" (String ";" r))) => String "<" (unescape r)
  | String "&" (String "g" (String "t" (String ";" r))) => String ">" (unescape r)
  | String a r => String a (unescape r)
  | EmptyString => EmptyString
  end.

Lemma unescape_other (a : ascii) (r : string) :
  a <> "&"%char -> unescape (String a r) = String a (unescape r).
Proof.
  intro H. destruct a as [[] [] [] [] [] [] [] []]; try reflexivity. congruence.
Qed.

Lemma unescape_escape_char (a : ascii) (r : string) :
  unescape (escape_char a ++ r) = String a (unescape r).
Proof.
  unfold escape_char.
  destruct (Ascii.eqb a "&") eqn:E1; [apply Ascii.eqb_eq in E1; subst; reflexivity |].
  destruct (Ascii.eqb a "<") eqn:E2; [apply Ascii.eqb_eq in E2; subst; reflexivity |].
  destruct (Ascii.eqb a ">") eqn:E3; [apply Ascii.eqb_eq in E3; subst; reflexivity |].
  simpl. apply unescape_other. intro H. subst. discriminate.
Qed.

Lemma get_app (n : nat) (s1 s2 : string) :
  get n (s1 ++ s2) =
    if Nat.ltb n (String.length s1) then get n s1 else get (n - String.length s1) s2.
Proof.
  revert n. induction s1 as [| a s1 IH]; intro n; simpl.
  - rewrite Nat.sub_0_r. reflexivity.
  - destruct n as [| n]; simpl; [reflexivity | apply IH].
Qed.

Lemma escape_char_no_angle (a : ascii) (n : nat) :
  get n (escape_char a) <> Some "<"%char /\ get n (escape_char a) <> Some ">"%char.
Proof.
  unfold escape_char.
  destruct (Ascii.eqb a "&") eqn:E1;
    [do 6 (destruct n as [| n]; [split; simpl; congruence |]); simpl; split; congruence |].
  destruct (Ascii.eqb a "<") eqn:E2;
    [do 5 (destruct n as [| n]; [split; simpl; congruence |]); simpl; split; congruence |].
  destruct (Ascii.eqb a ">") eqn:E3;
    [do 5 (destruct n as [| n]; [split; simpl; congruence |]); simpl; split; congruence |].
  destruct n as [| n]; simpl; [| split; congruence].
  split; intro H; injection H as ->; discriminate.
Qed.

(** [text()] writes its content so that it can never open or close a tag:
    the escaped body contains no [<] and no [>], and decoding the entities
    gives back the content exactly. *)
Theorem escape_text_inert (content : string) :
  (forall n, get n (escape_text content) <> Some "<"%char /\
             get n (escape_text content) <> Some ">"%char) /\
  unescape (escape_text content) = content.
Proof.
  rewrite escape_text_spec. split.
  - induction content as [| a s IH]; intro n; simpl; [split; discriminate |].
    rewrite get_app. destruct (Nat.ltb n (String.length (escape_char a)));
      [apply escape_char_no_angle | apply IH].
  - induction content as [| a s IH]; [reflexivity |].
    simpl. rewrite unescape_escape_char, IH. reflexivity.
Qed.

(* ================================================================== *)
(** * The code-search executor (its [search] object)

    [executeCode(code, rootDir)] of the code-search tool hands user code a
    [search] object with [listFiles], [grep] and [readFile], and returns the
    code's result with the metadata [filesRead] and [searchesPerformed].
    Strings are ASCII text; the numeric options are integers ([Z]). *)

Module CodeSearch.

(** [content.split('\n')] *)
Fixpoint split_nl (s : string) : list string :=
  match s with
  | EmptyString => [EmptyString]
  | String a s' =>
      let rest := split_nl s' in
      if Ascii.eqb a (ascii_of_nat 10) then EmptyString :: rest
      else match rest with
           | cur :: more => String a cur :: more
           | [] => [String a EmptyString]
           end
  end.

(** The index normalisation of [Array.prototype.slice]: a negative index
    counts from the end, and both are clamped to [0 .. length]. *)
Definition rel_index (k len : Z) : Z :=
  if (k <? 0)%Z then Z.max (len + k) 0 else Z.min k len.

(** [xs.slice(s, e)] *)
Definition js_slice {A} (xs : list A) (s e : Z) : list A :=
  let len := Z.of_nat (length xs) in
  let from := rel_index s len in
  let to := rel_index e len in
  firstn (Z.to_nat (to - from)) (skipn (Z.to_nat from) xs).

(** [selectedLines.map((line, i) => `${startLine + i}: ${line}`)] *)
Fixpoint number_lines (n : Z) (ls : list string) : list (list piece) :=
  match ls with
  | [] => []
  | l :: ls' => [PNum (IZR n); PStr (": " ++ l)] :: number_lines (n + 1) ls'
  end.

Record ReadFileOptions := mkReadFileOptions {
  rf_startLine : option Z;
  rf_maxLines : option Z
}.

(** The string [readFile] returns for the file content [content]. *)
Definition readFile_result (content : string) (options : option ReadFileOptions)
  : list piece :=
  let lines := split_nl content in
  let startLine := coalesce (opt_get rf_startLine options) 1%Z in
  let maxLines := coalesce (opt_get rf_maxLines options) 200%Z in
  let len := Z.of_nat (length lines) in
  let endLine := Z.min (startLine + maxLines - 1) len in
  let selectedLines := js_slice lines (startLine - 1) endLine in
  let numbered := join_nl (number_lines startLine selectedLines) in
  if (len >? endLine)%Z
  then (numbered ++ [PStr (newline ++ "... ("); PNum (IZR (len - endLine));
                     PStr " more lines)"])%list
  else numbered.

(** The closure variables [filesRead] and [searchesPerformed]. *)
Record search_state := mkSearchState {
  filesRead : list string;
  searchesPerformed : nat
}.

Section Search.

(** [fs.readFile(path.join(rootDir, p), 'utf-8')], by the path [p] relative
    to [rootDir]. *)
Variable read_file : string -> promise string.

(** [search.readFile(filePath, options)]: the path is recorded only once the
    read has succeeded. *)
Definition readFile (filePath : string) (options : option ReadFileOptions)
  (st : search_state) : promise (list piece) * search_state :=
  match read_file filePath with
  | Rejected t => (Rejected t, st)
  | Resolved content =>
      (Resolved (readFile_result content options),
       {| filesRead := filesRead st ++ [filePath];
          searchesPerformed := searchesPerformed st |})
  end.

End Search.

(** An entry of [fs.readdir(dir, { withFileTypes: true })], with what reading
    it gives: the listing of a directory, the content of a file.  An entry
    that is neither ([isDirectory()] and [isFile()] both false, e.g. a
    symbolic link) is [OtherEntry]. *)
Inductive dirent :=
| DirEntry (name : string) (children : promise (list dirent))
| FileEntry (name : string) (content : promise string)
| OtherEntry (name : string).

Definition entry_name (e : dirent) : string :=
  match e with
  | DirEntry n _ | FileEntry n _ | OtherEntry n => n
  end.

(** [{ file, line, content }]; [file], [path.relative(rootDir, entryPath)],
    is kept as its path segments. *)
Record grep_match := mkGrepMatch {
  gm_file : list string;
  gm_line : Z;
  gm_content : string
}.

(** JS white space and line terminators of the ASCII range. *)
Definition is_ws (a : ascii) : bool :=
  let n := nat_of_ascii a in ((9 <=? n)%nat && (n <=? 13)%nat) || (n =? 32)%nat.

Fixpoint trim_start (s : string) : string :=
  match s with
  | EmptyString => EmptyString
  | String a s' => if is_ws a then trim_start s' else s
  end.

Fixpoint trim_end (s : string) : string :=
  match s with
  | EmptyString => EmptyString
  | String a s' =>
      let r := trim_end s' in
      if String.eqb r "" && is_ws a then EmptyString else String a r
  end.

(** [s.trim()] *)
Definition js_trim (s : string) : string := trim_end (trim_start s).

(** The directories [searchDir] does not descend into. *)
Definition skipped_dir (name : string) : bool :=
  String.prefix "." name || String.eqb name "node_modules" || String.eqb name "dist".

Definition zlen {A} (l : list A) : Z := Z.of_nat (length l).

Section Grep.

(** [limit] and [regex.test] (the [lastIndex] reset after every line makes
    each test start at index 0). *)
Variable limit : Z.
Variable test : string -> bool.

(** The [for] loop over the lines of one file at [rel]. *)
Fixpoint search_lines (rel : list string) (i : Z) (lines : list string)
  (results : list grep_match) : bool * list grep_match :=
  match lines with
  | [] => (false, results)
  | l :: ls =>
      if test l then
        let results' := (results ++ [mkGrepMatch rel (i + 1) (js_trim l)])%list in
        if (limit <=? zlen results')%Z then (true, results')
        else search_lines rel (i + 1) ls results'
      else search_lines rel (i + 1) ls results
  end.

(** [searchDir(dir)] for the directory entry [d] at [rel]; [true] means the
    limit was reached.  A rejected [readdir] rejects, a rejected [readFile]
    is caught and the file skipped. *)
Fixpoint searchDir (rel : list string) (d : dirent) (results : list grep_match)
  : promise (bool * list grep_match) :=
  match d with
  | DirEntry _ children =>
      if (limit <=? zlen results)%Z then Resolved (true, results) else
      match children with
      | Rejected t => Rejected t
      | Resolved entries =>
          (fix loop (es : list dirent) (results : list grep_match)
             : promise (bool * list grep_match) :=
             match es with
             | [] => Resolved (false, results)
             | e :: es' =>
                 if (limit <=? zlen results)%Z then Resolved (true, results) else
                 match e with
                 | DirEntry name _ =>
                     if negb (skipped_dir name) then
                       match searchDir (rel ++ [name])%list e results with
                       | Rejected t => Rejected t
                       | Resolved (true, r) => Resolved (true, r)
                       | Resolved (false, r) => loop es' r
                       end
                     else loop es' results
                 | FileEntry name (Resolved content) =>
                     match search_lines (rel ++ [name])%list 0 (split_nl content) results with
                     | (true, r) => Resolved (true, r)
                     | (false, r) => loop es' r
                     end
                 | FileEntry _ (Rejected _) => loop es' results
                 | OtherEntry _ => loop es' results
                 end
             end) entries results
      end
  | _ => Resolved (false, results)
  end.

End Grep.

Record GrepOptions := mkGrepOptions {
  go_limit : option Z
}.

(** [search.grep(pattern, searchPath = '.', options = {})].  [RegExp]
    is [new RegExp(pattern, 'g')] (a SyntaxError rejects); [readdir_at]
    lists [path.join(rootDir, searchPath)]; [searchPath] is given by its
    normalised segments, ['.'] being []. *)
Definition grep (RegExp : string -> promise (string -> bool))
  (readdir_at : list string -> promise (list dirent))
  (pattern : string) (searchPath : option (list string))
  (options : option GrepOptions) (st : search_state)
  : promise (list grep_match) * search_state :=
  let st' := {| filesRead := filesRead st; searchesPerformed := S (searchesPerformed st) |} in
  let limit := coalesce (opt_get go_limit options) 50%Z in
  let sp := coalesce searchPath [] in
  match RegExp pattern with
  | Rejected t => (Rejected t, st')
  | Resolved test =>
      match searchDir limit test sp (DirEntry "" (readdir_at sp)) [] with
      | Rejected t => (Rejected t, st')
      | Resolved (_, results) => (Resolved results, st')
      end
  end.

End CodeSearch.

Module CodeSearchFacts.
Import CodeSearch.

(** [[s; s+1; ...; s+n-1]] *)
Fixpoint zseq (s : Z) (n : nat) : list Z :=
  match n with
  | O => []
  | S n' => s :: zseq (s + 1) n'
  end.

(** Line [k] of the file (1-based), as [readFile] labels it. *)
Definition labelled_line (lines : list string) (k : Z) : list piece :=
  [PNum (IZR k); PStr (": " ++ nth (Z.to_nat (k - 1)) lines "")].

Definition more_lines (k : Z) : list piece :=
  [PStr (newline ++ "... ("); PNum (IZR k); PStr " more lines)"].

Lemma skipn_nth_cons {A} (l : list A) (j : nat) (d : A) :
  (j < length l)%nat -> skipn j l = nth j l d :: skipn (S j) l.
Proof.
  revert j. induction l as [| x l IH]; intros j Hj; simpl in *; [lia |].
  destruct j as [| j]; [reflexivity |]. simpl. apply IH. lia.
Qed.

Lemma number_lines_window (lines : list string) (s : Z) (c : nat) :
  (1 <= s)%Z -> (c + Z.to_nat (s - 1) <= length lines)%nat ->
  number_lines s (firstn c (skipn (Z.to_nat (s - 1)) lines)) =
    map (labelled_line lines) (zseq s c).
Proof.
  revert s. induction c as [| c IH]; intros s Hs Hc; [reflexivity |].
  rewrite (skipn_nth_cons lines (Z.to_nat (s - 1)) "") by lia.
  cbn [firstn number_lines zseq map]. f_equal.
  replace (S (Z.to_nat (s - 1))) with (Z.to_nat (s + 1 - 1)) by lia.
  apply IH; lia.
Qed.

(** [readFile] with a start line [s >= 1] and a window of [m >= 0] lines. *)
Lemma readFile_result_window (content : string) (s m : Z) :
  (1 <= s)%Z -> (0 <= m)%Z ->
  let lines := split_nl content in
  let len := Z.of_nat (length lines) in
  let endLine := Z.min (s + m - 1) len in
  readFile_result content (Some (mkReadFileOptions (Some s) (Some m))) =
    (join_nl (map (labelled_line lines) (zseq s (Z.to_nat (endLine - s + 1))))
     ++ (if (len >? endLine)%Z then more_lines (len - endLine) else []))%list.
Proof.
  intros Hs Hm lines len endLine.
  unfold readFile_result. cbn [coalesce opt_get rf_startLine rf_maxLines].
  fold lines len endLine.
  assert (Hslice : js_slice lines (s - 1) endLine =
                   firstn (Z.to_nat (endLine - s + 1)) (skipn (Z.to_nat (s - 1)) lines)).
  { unfold js_slice. fold len. unfold rel_index.
    destruct (s - 1 <? 0)%Z eqn:E1; [apply Z.ltb_lt in E1; lia |].
    destruct (endLine <? 0)%Z eqn:E2; [apply Z.ltb_lt in E2; unfold endLine, len in *; lia |].
    replace (Z.min endLine len) with endLine by (unfold endLine; lia).
    destruct (Z.le_gt_cases (s - 1) len) as [Hle | Hgt].
    - replace (Z.min (s - 1) len) with (s - 1)%Z by lia.
      replace (endLine - (s - 1))%Z with (endLine - s + 1)%Z by lia. reflexivity.
    - replace (Z.to_nat (endLine - Z.min (s - 1) len)) with O by (unfold endLine; lia).
      replace (Z.to_nat (endLine - s + 1)) with O by (unfold endLine; lia).
      reflexivity. }
  rewrite Hslice.
  destruct (Z.le_gt_cases (s - 1) len) as [Hle | Hgt].
  - rewrite number_lines_window by (unfold endLine, len in *; lia).
    destruct (len >? endLine)%Z; [reflexivity | symmetry; apply app_nil_r].
  - replace (Z.to_nat (endLine - s + 1)) with O by (unfold endLine; lia).
    destruct (len >? endLine)%Z; reflexivity.
Qed.

Lemma split_nl_nonempty (s : string) : split_nl s <> [].
Proof.
  induction s as [| a s IH]; simpl; [discriminate |].
  destruct (Ascii.eqb a (ascii_of_nat 10)); [discriminate |].
  destruct (split_nl s); [contradiction | discriminate].
Qed.

(** [readFile] without options shows the first 200 lines of the file, each
    labelled with its line number from 1; when the file is longer it appends
    [... (k more lines)] with [k] the number of lines left out. *)
Theorem readFile_defaults (content : string) :
  let lines := split_nl content in
  let n := length lines in
  readFile_result content None =
    (join_nl (map (labelled_line lines) (zseq 1 (Nat.min n 200)))
     ++ (if (200 <? n)%nat then more_lines (Z.of_nat n - 200) else []))%list.
Proof.
  intros lines n.
  replace (readFile_result content None)
    with (readFile_result content (Some (mkReadFileOptions (Some 1%Z) (Some 200%Z))))
    by reflexivity.
  rewrite readFile_result_window by lia. fold lines n.
  replace (Z.to_nat (Z.min (1 + 200 - 1) (Z.of_nat n) - 1 + 1)) with (Nat.min n 200) by lia.
  replace (Z.min (1 + 200 - 1) (Z.of_nat n)) with (Z.of_nat (Nat.min n 200)) by lia.
  destruct (200 <? n)%nat eqn:E.
  - apply Nat.ltb_lt in E.
    replace (Z.of_nat n >? Z.of_nat (Nat.min n 200))%Z with true
      by (symmetry; rewrite Z.gtb_ltb; apply Z.ltb_lt; lia).
    do 3 f_equal. lia.
  - apply Nat.ltb_ge in E.
    replace (Z.of_nat n >? Z.of_nat (Nat.min n 200))%Z with false
      by (symmetry; rewrite Z.gtb_ltb; apply Z.ltb_ge; lia).
    reflexivity.
Qed.

(** [readFile] with [startLine = s >= 1] and [maxLines = m >= 0] shows the
    lines [s .. min(s + m - 1, n)] of the [n]-line file, each labelled with
    its own line number, and appends [... (k more lines)] exactly when lines
    follow the window, [k] being their number. *)
Theorem readFile_window_labels (content : string) (s m : Z) :
  (1 <= s)%Z -> (0 <= m)%Z ->
  let lines := split_nl content in
  let len := Z.of_nat (length lines) in
  let endLine := Z.min (s + m - 1) len in
  readFile_result content (Some (mkReadFileOptions (Some s) (Some m))) =
    (join_nl (map (labelled_line lines) (zseq s (Z.to_nat (endLine - s + 1))))
     ++ (if (len >? endLine)%Z then more_lines (len - endLine) else []))%list.
Proof. apply readFile_result_window. Qed.

Lemma readFile_window_labels_witness :
  (1 <= 2)%Z /\ (0 <= 1)%Z /\
  readFile_result ("a" ++ newline ++ "b" ++ newline ++ "c")
    (Some (mkReadFileOptions (Some 2%Z) (Some 1%Z))) =
    ([PNum (IZR 2); PStr ": b"] ++ more_lines 1)%list.
Proof.
  split; [lia | split; [lia |]].
  rewrite (readFile_window_labels _ 2 1 ltac:(lia) ltac:(lia)). reflexivity.
Defined.

Lemma skipn_last {A} (l : list A) (d : A) :
  l <> [] -> skipn (length l - 1) l = [last l d].
Proof.
  induction l as [| x l IH]; intro H; [contradiction |].
  destruct l as [| y l]; [reflexivity |].
  cbn [length]. replace (S (S (length l)) - 1)%nat with (S (length (y :: l) - 1))
    by (simpl; lia).
  cbn [skipn]. rewrite IH by discriminate. reflexivity.
Qed.

(** [startLine: 0] makes [lines.slice(-1, endLine)] count from the end: when
    the window covers the whole file, [readFile] shows only the file's last
    line, labelled [0:], and no [more lines] note. *)
Theorem readFile_startLine_zero (content : string) (maxLines : option Z) :
  (Z.of_nat (length (split_nl content)) < coalesce maxLines 200)%Z ->
  readFile_result content (Some (mkReadFileOptions (Some 0%Z) maxLines)) =
    [PNum (IZR 0); PStr (": " ++ last (split_nl content) "")].
Proof.
  intro Hm. unfold readFile_result. cbn [opt_get rf_startLine rf_maxLines coalesce].
  set (lines := split_nl content) in *.
  assert (Hne : lines <> []) by apply split_nl_nonempty.
  assert (Hlen : (1 <= length lines)%nat) by (destruct lines; [contradiction | simpl; lia]).
  set (m := coalesce maxLines 200%Z) in *.
  replace (Z.min (0 + m - 1) (Z.of_nat (length lines))) with (Z.of_nat (length lines))
    by lia.
  replace (Z.of_nat (length lines) >? Z.of_nat (length lines))%Z with false
    by (symmetry; rewrite Z.gtb_ltb; apply Z.ltb_ge; lia).
  unfold js_slice, rel_index. cbn [Z.ltb Z.compare Z.sub Z.add Z.opp].
  replace (Z.max (Z.of_nat (length lines) + -1) 0) with (Z.of_nat (length lines - 1))
    by lia.
  replace ((Z.of_nat (length lines) <? 0)%Z) with false by (symmetry; apply Z.ltb_ge; lia).
  rewrite Z.min_id, Nat2Z.id.
  replace (Z.to_nat (Z.of_nat (length lines) - Z.of_nat (length lines - 1))) with 1%nat
    by lia.
  rewrite (skipn_last lines "" Hne). reflexivity.
Qed.

Lemma readFile_startLine_zero_witness :
  (Z.of_nat (length (split_nl ("a" ++ newline ++ "b"))) < coalesce None 200)%Z /\
  readFile_result ("a" ++ newline ++ "b") (Some (mkReadFileOptions (Some 0%Z) None)) =
    [PNum (IZR 0); PStr ": b"].
Proof.
  split; [vm_compute; reflexivity |].
  rewrite readFile_startLine_zero by (vm_compute; reflexivity). reflexivity.
Defined.

End CodeSearchFacts.

Module GrepFacts.
Import CodeSearch.

(** What a full traversal meets, in [searchDir]'s order, with no limit: the
    matching lines, and the listings that fail. *)
Inductive grep_event :=
| EvMatch (m : grep_match)
| EvFail (t : thrown).

Section Events.
Variable test : string -> bool.

Fixpoint line_events (rel : list string) (i : Z) (lines : list string)
  : list grep_event :=
  match lines with
  | [] => []
  | l :: ls =>
      ((if test l then [EvMatch (mkGrepMatch rel (i + 1) (js_trim l))] else [])
       ++ line_events rel (i + 1) ls)%list
  end.

Fixpoint dir_events (rel : list string) (d : dirent) : list grep_event :=
  match d with
  | DirEntry _ (Rejected t) => [EvFail t]
  | DirEntry _ (Resolved es) =>
      (fix loop (es : list dirent) : list grep_event :=
         match es with
         | [] => []
         | e :: es' =>
             ((match e with
               | DirEntry name _ =>
                   if skipped_dir name then [] else dir_events (rel ++ [name])%list e
               | FileEntry name (Resolved c) =>
                   line_events (rel ++ [name])%list 0 (split_nl c)
               | _ => []
               end) ++ loop es')%list
         end) es
  | _ => []
  end.

End Events.

(** Collecting the events up to [limit] results; a failure met before
    rejects. *)
Fixpoint run_events (limit : Z) (evs : list grep_event) (acc : list grep_match)
  : promise (list grep_match) :=
  match evs with
  | [] => Resolved acc
  | ev :: evs' =>
      if (limit <=? zlen acc)%Z then Resolved acc else
      match ev with
      | EvMatch m => run_events limit evs' (acc ++ [m])%list
      | EvFail t => Rejected t
      end
  end.

Definition with_flag (limit : Z) (p : promise (list grep_match))
  : promise (bool * list grep_match) :=
  match p with
  | Resolved r => Resolved ((limit <=? zlen r)%Z, r)
  | Rejected t => Rejected t
  end.

Definition is_dir (d : dirent) : bool :=
  match d with DirEntry _ _ => true | _ => false end.

(** A readable file at [p] below the listing [es], reached without entering
    a directory [searchDir] skips. *)
Inductive file_under : list dirent -> list string -> string -> Prop :=
| FUFile (es : list dirent) (n c : string) :
    In (FileEntry n (Resolved c)) es -> file_under es [n] c
| FUDir (es es' : list dirent) (n : string) (p : list string) (c : string) :
    In (DirEntry n (Resolved es')) es -> skipped_dir n = false ->
    file_under es' p c -> file_under es (n :: p) c.

Section dirent_ind'.
Variable P : dirent -> Prop.
Hypothesis HDirOk : forall n es, Forall P es -> P (DirEntry n (Resolved es)).
Hypothesis HDirErr : forall n t, P (DirEntry n (Rejected t)).
Hypothesis HFile : forall n c, P (FileEntry n c).
Hypothesis HOther : forall n, P (OtherEntry n).

Fixpoint dirent_ind' (d : dirent) : P d :=
  match d with
  | DirEntry n (Resolved es) =>
      HDirOk n es
        ((fix go (es : list dirent) : Forall P es :=
            match es with
            | [] => Forall_nil _
            | e :: es' => Forall_cons _ (dirent_ind' e) (go es')
            end) es)
  | DirEntry n (Rejected t) => HDirErr n t
  | FileEntry n c => HFile n c
  | OtherEntry n => HOther n
  end.
End dirent_ind'.

Lemma zlen_snoc {A} (l : list A) (x : A) : zlen (l ++ [x])%list = (zlen l + 1)%Z.
Proof. unfold zlen. rewrite length_app. simpl. lia. Qed.

Lemma run_events_full (limit : Z) (evs : list grep_event) (acc : list grep_match) :
  (limit <= zlen acc)%Z -> run_events limit evs acc = Resolved acc.
Proof.
  intro H. destruct evs; simpl; [reflexivity |].
  replace (limit <=? zlen acc)%Z with true by (symmetry; apply Z.leb_le; exact H).
  reflexivity.
Qed.

Lemma run_events_app (limit : Z) (e1 e2 : list grep_event) (acc : list grep_match) :
  run_events limit (e1 ++ e2)%list acc =
    match run_events limit e1 acc with
    | Resolved r => run_events limit e2 r
    | Rejected t => Rejected t
    end.
Proof.
  revert acc. induction e1 as [| ev e1 IH]; intro acc; simpl; [reflexivity |].
  destruct (limit <=? zlen acc)%Z eqn:E.
  - symmetry. apply run_events_full, Z.leb_le, E.
  - destruct ev; [apply IH | reflexivity].
Qed.

Lemma search_lines_events (limit : Z) (test : string -> bool) (rel : list string)
  (lines : list string) : forall (i : Z) (acc : list grep_match),
  (zlen acc < limit)%Z ->
  exists r, run_events limit (line_events test rel i lines) acc = Resolved r /\
            search_lines limit test rel i lines acc = ((limit <=? zlen r)%Z, r).
Proof.
  induction lines as [| l ls IH]; intros i acc Hacc; simpl.
  - exists acc. split; [reflexivity |].
    replace (limit <=? zlen acc)%Z with false by (symmetry; apply Z.leb_gt; exact Hacc).
    reflexivity.
  - destruct (test l); simpl.
    + replace (limit <=? zlen acc)%Z with false by (symmetry; apply Z.leb_gt; exact Hacc).
      destruct (limit <=? zlen (acc ++ [mkGrepMatch rel (i + 1) (js_trim l)])%list)%Z eqn:E.
      * exists (acc ++ [mkGrepMatch rel (i + 1) (js_trim l)])%list.
        rewrite E. split; [apply run_events_full, Z.leb_le, E | reflexivity].
      * apply IH. apply Z.leb_gt, E.
    + apply IH, Hacc.
Qed.

(** [searchDir] on a directory is the collection of its events. *)
Lemma searchDir_events (limit : Z) (test : string -> bool) (d : dirent) :
  forall (rel : list string) (acc : list grep_match), is_dir d = true ->
  searchDir limit test rel d acc =
    with_flag limit (run_events limit (dir_events test rel d) acc).
Proof.
  induction d as [n es Hall | n t | n c | n] using dirent_ind';
    intros rel acc Hd; try discriminate.
  - cbn [searchDir dir_events].
    destruct (limit <=? zlen acc)%Z eqn:Efull.
    { rewrite run_events_full by (apply Z.leb_le, Efull). simpl. rewrite Efull. reflexivity. }
    apply Z.leb_gt in Efull. clear Hd. revert acc Efull.
    induction Hall as [| e es He Hall IH]; intros acc Hacc; simpl.
    + replace (limit <=? zlen acc)%Z with false by (symmetry; apply Z.leb_gt; exact Hacc).
      reflexivity.
    + replace (limit <=? zlen acc)%Z with false by (symmetry; apply Z.leb_gt; exact Hacc).
      rewrite run_events_app.
      destruct e as [n' ch | n' [c | t] | n'].
      * destruct (skipped_dir n'); cbn [negb app].
        { apply IH, Hacc. }
        rewrite (He (rel ++ [n'])%list acc eq_refl).
        destruct (run_events limit (dir_events test (rel ++ [n'])%list (DirEntry n' ch)) acc)
          as [r | t]; simpl; [| reflexivity].
        destruct (limit <=? zlen r)%Z eqn:Er.
        { rewrite run_events_full by (apply Z.leb_le, Er). simpl. rewrite Er. reflexivity. }
        apply IH. apply Z.leb_gt, Er.
      * destruct (search_lines_events limit test (rel ++ [n'])%list (split_nl c) 0 acc Hacc)
          as [r [Hr Hs]].
        rewrite Hr, Hs.
        destruct (limit <=? zlen r)%Z eqn:Er.
        { rewrite run_events_full by (apply Z.leb_le, Er). simpl. rewrite Er. reflexivity. }
        apply IH. apply Z.leb_gt, Er.
      * apply IH, Hacc.
      * apply IH, Hacc.
  - cbn [searchDir dir_events]. simpl.
    destruct (limit <=? zlen acc)%Z eqn:E; [| reflexivity].
    simpl. rewrite E. reflexivity.
Qed.

Lemma grep_events (RegExp : string -> promise (string -> bool))
  (readdir_at : list string -> promise (list dirent)) (pattern : string)
  (sp : option (list string)) (options : option GrepOptions) (st : search_state) :
  fst (grep RegExp readdir_at pattern sp options st) =
    match RegExp pattern with
    | Rejected t => Rejected t
    | Resolved test =>
        run_events (coalesce (opt_get go_limit options) 50%Z)
          (dir_events test (coalesce sp []) (DirEntry "" (readdir_at (coalesce sp [])))) []
    end.
Proof.
  unfold grep. destruct (RegExp pattern) as [test | t]; [| reflexivity].
  rewrite searchDir_events by reflexivity.
  destruct (run_events _ _ _); reflexivity.
Qed.

Lemma run_events_bounded (limit : Z) (evs : list grep_event) :
  forall (acc r : list grep_match),
  (zlen acc <= Z.max 0 limit)%Z -> run_events limit evs acc = Resolved r ->
  (zlen r <= Z.max 0 limit)%Z.
Proof.
  induction evs as [| ev evs IH]; intros acc r Hacc Hr; simpl in Hr.
  - injection Hr as <-. exact Hacc.
  - destruct (limit <=? zlen acc)%Z eqn:E; [injection Hr as <-; exact Hacc |].
    apply Z.leb_gt in E.
    destruct ev as [m | t]; [| discriminate].
    apply (IH (acc ++ [m])%list r); [rewrite zlen_snoc; lia | exact Hr].
Qed.

Lemma run_events_in (limit : Z) (evs : list grep_event) :
  forall (acc r : list grep_match) (m : grep_match),
  run_events limit evs acc = Resolved r -> In m r -> In m acc \/ In (EvMatch m) evs.
Proof.
  induction evs as [| ev evs IH]; intros acc r m Hr Hm; simpl in Hr.
  - injection Hr as <-. left. exact Hm.
  - destruct (limit <=? zlen acc)%Z; [injection Hr as <-; left; exact Hm |].
    destruct ev as [m' | t]; [| discriminate].
    destruct (IH _ _ _ Hr Hm) as [Hin | Hin].
    + apply in_app_or in Hin as [Hin | [<- | []]]; [left; exact Hin | right; left; reflexivity].
    + right. right. exact Hin.
Qed.

Lemma line_events_sound (test : string -> bool) (rel : list string) (lines : list string) :
  forall (i : Z) (m : grep_match), In (EvMatch m) (line_events test rel i lines) ->
  exists j l, nth_error lines j = Some l /\ gm_line m = (i + 1 + Z.of_nat j)%Z /\
              gm_file m = rel /\ test l = true /\ gm_content m = js_trim l.
Proof.
  induction lines as [| l ls IH]; intros i m Hin; simpl in Hin; [contradiction |].
  apply in_app_or in Hin as [Hin | Hin].
  - destruct (test l) eqn:Et; [| contradiction].
    destruct Hin as [Heq | []]. injection Heq as <-.
    exists O, l. simpl. repeat split; auto. lia.
  - destruct (IH (i + 1)%Z m Hin) as [j [l' [Hj [Hl [Hf [Ht Hc]]]]]].
    exists (S j), l'. simpl. repeat split; auto. lia.
Qed.

Lemma dir_events_sound (test : string -> bool) (d : dirent) :
  forall (rel : list string) (n : string) (es : list dirent) (m : grep_match),
  d = DirEntry n (Resolved es) -> In (EvMatch m) (dir_events test rel d) ->
  exists p c l, file_under es p c /\ gm_file m = (rel ++ p)%list /\
    (1 <= gm_line m)%Z /\ nth_error (split_nl c) (Z.to_nat (gm_line m - 1)) = Some l /\
    test l = true /\ gm_content m = js_trim l.
Proof.
  induction d as [n0 es0 Hall | n0 t | n0 c | n0] using dirent_ind';
    intros rel n es m Hd Hin; try discriminate.
  injection Hd as <- <-. cbn [dir_events] in Hin.
  remember es0 as es1 eqn:E in Hin.
  assert (Hincl : incl es1 es0) by (rewrite E; apply incl_refl).
  assert (Hall1 : Forall (fun d => forall rel n es m, d = DirEntry n (Resolved es) ->
            In (EvMatch m) (dir_events test rel d) ->
            exists p c l, file_under es p c /\ gm_file m = (rel ++ p)%list /\
              (1 <= gm_line m)%Z /\
              nth_error (split_nl c) (Z.to_nat (gm_line m - 1)) = Some l /\
              test l = true /\ gm_content m = js_trim l) es1) by (rewrite E; exact Hall).
  clear E Hall.
  induction es1 as [| e es1 IHl]; cbn in Hin; [contradiction |].
  apply Forall_cons_iff in Hall1 as [He Hall1].
  assert (Hincl1 : incl es1 es0) by (intros x Hx; apply Hincl; right; exact Hx).
  apply in_app_or in Hin as [Hin | Hin]; [| exact (IHl Hin Hincl1 Hall1)].
  destruct e as [n' [es' | t] | n' [c | t] | n'].
  - destruct (skipped_dir n') eqn:Esk; [contradiction |].
    destruct (He (rel ++ [n'])%list n' es' m eq_refl Hin)
      as [p [c [l [Hfu [Hf [Hl [Hn [Ht Hc]]]]]]]].
    exists (n' :: p), c, l. repeat split; auto.
    + apply (FUDir es0 es' n' p c); [apply Hincl; left; reflexivity | exact Esk | exact Hfu].
    + rewrite Hf, <- app_assoc. reflexivity.
  - destruct (skipped_dir n'); cbn in Hin; [contradiction |].
    destruct Hin as [Hin | []]. discriminate.
  - destruct (line_events_sound test (rel ++ [n'])%list (split_nl c) 0 m Hin)
      as [j [l [Hj [Hl [Hf [Ht Hc]]]]]].
    exists [n'], c, l. repeat split; auto.
    + apply FUFile. apply Hincl. left. reflexivity.
    + lia.
    + rewrite Hl. replace (Z.to_nat (0 + 1 + Z.of_nat j - 1)) with j by lia. exact Hj.
  - contradiction.
  - contradiction.
Qed.

(** [grep] never returns more results than its [limit] (default 50), and
    none at all for a limit [<= 0]. *)
Theorem grep_results_bounded (RegExp : string -> promise (string -> bool))
  (readdir_at : list string -> promise (list dirent)) (pattern : string)
  (sp : option (list string)) (options : option GrepOptions) (st : search_state)
  (results : list grep_match) :
  fst (grep RegExp readdir_at pattern sp options st) = Resolved results ->
  (zlen results <= Z.max 0 (coalesce (opt_get go_limit options) 50))%Z.
Proof.
  rewrite grep_events. destruct (RegExp pattern) as [test | t]; [| discriminate].
  intro H. apply (run_events_bounded _ _ [] _ ltac:(unfold zlen; simpl; lia) H).
Qed.

(** Every [grep] result is a matching line of a file below [searchPath] that
    could be read: [file] is that file's path, [line] its 1-based line number
    and [content] the trimmed line; the file is never inside a directory
    whose name starts with ['.'] or is [node_modules] or [dist]. *)
Theorem grep_results_sound (RegExp : string -> promise (string -> bool))
  (readdir_at : list string -> promise (list dirent)) (pattern : string)
  (sp : option (list string)) (options : option GrepOptions) (st : search_state)
  (test : string -> bool) (es : list dirent) (results : list grep_match)
  (m : grep_match) :
  RegExp pattern = Resolved test ->
  readdir_at (coalesce sp []) = Resolved es ->
  fst (grep RegExp readdir_at pattern sp options st) = Resolved results ->
  In m results ->
  exists p c l, file_under es p c /\ gm_file m = (coalesce sp [] ++ p)%list /\
    (1 <= gm_line m)%Z /\ nth_error (split_nl c) (Z.to_nat (gm_line m - 1)) = Some l /\
    test l = true /\ gm_content m = js_trim l.
Proof.
  intros Hre Hdir Hg Hm. rewrite grep_events, Hre, Hdir in Hg.
  destruct (run_events_in _ _ _ _ m Hg Hm) as [[] | Hin].
  exact (dir_events_sound test _ _ "" es m eq_refl Hin).
Qed.

Lemma run_events_extends (limit : Z) (evs : list grep_event) :
  forall (acc r : list grep_match),
  run_events limit evs acc = Resolved r -> exists rest, r = (acc ++ rest)%list.
Proof.
  induction evs as [| ev evs IH]; intros acc r Hr; simpl in Hr.
  - injection Hr as <-. exists []. symmetry. apply app_nil_r.
  - destruct (limit <=? zlen acc)%Z; [injection Hr as <-; exists []; symmetry; apply app_nil_r |].
    destruct ev as [m | t]; [| discriminate].
    destruct (IH _ _ Hr) as [rest ->]. exists (m :: rest). rewrite <- app_assoc. reflexivity.
Qed.

Lemma firstn_app_length {A} (l r : list A) : firstn (length l) (l ++ r)%list = l.
Proof. induction l; simpl; [reflexivity | f_equal; assumption]. Qed.

Lemma run_events_prefix (k1 k2 : Z) (evs : list grep_event) :
  forall (acc r2 : list grep_match),
  (zlen acc <= k1)%Z -> (k1 <= k2)%Z ->
  run_events k2 evs acc = Resolved r2 ->
  run_events k1 evs acc = Resolved (firstn (Z.to_nat k1) r2).
Proof.
  induction evs as [| ev evs IH]; intros acc r2 Hacc Hk Hr; simpl in Hr |- *.
  - injection Hr as <-. f_equal. symmetry. apply firstn_all2. unfold zlen in Hacc. lia.
  - destruct (k1 <=? zlen acc)%Z eqn:E1.
    + apply Z.leb_le in E1.
      replace (Z.to_nat k1) with (length acc) by (unfold zlen in *; lia).
      destruct (run_events_extends k2 (ev :: evs) acc r2 ltac:(simpl; exact Hr)) as [rest ->].
      rewrite firstn_app_length. reflexivity.
    + apply Z.leb_gt in E1.
      replace (k2 <=? zlen acc)%Z with false in Hr by (symmetry; apply Z.leb_gt; lia).
      destruct ev as [m | t]; [| discriminate].
      apply (IH (acc ++ [m])%list r2); [rewrite zlen_snoc; lia | exact Hk | exact Hr].
Qed.

(** Lowering the [limit] of a [grep] that succeeds gives a [grep] that also
    succeeds and returns the first [limit] of its results. *)
Theorem grep_limit_prefix (RegExp : string -> promise (string -> bool))
  (readdir_at : list string -> promise (list dirent)) (pattern : string)
  (sp : option (list string)) (st : search_state) (k1 k2 : Z)
  (results2 : list grep_match) :
  (0 <= k1 <= k2)%Z ->
  fst (grep RegExp readdir_at pattern sp (Some (mkGrepOptions (Some k2))) st) =
    Resolved results2 ->
  fst (grep RegExp readdir_at pattern sp (Some (mkGrepOptions (Some k1))) st) =
    Resolved (firstn (Z.to_nat k1) results2).
Proof.
  intros Hk. rewrite !grep_events. cbn [opt_get go_limit coalesce].
  destruct (RegExp pattern) as [test | t]; [| discriminate].
  apply run_events_prefix; [unfold zlen; simpl; lia | lia].
Qed.

Definition sample_root : list dirent :=
  [FileEntry "a.ts" (Resolved ("  foo " ++ newline ++ "bar"));
   DirEntry "node_modules" (Resolved [FileEntry "x.ts" (Resolved "foo")]);
   DirEntry "src" (Resolved [FileEntry "b.ts" (Resolved "foo2");
                             FileEntry "bin" (Rejected (JsString "EISDIR"))])].

Definition sample_RegExp (pattern : string) : promise (string -> bool) :=
  Resolved (fun l => String.prefix pattern (js_trim l)).

Definition sample_readdir (p : list string) : promise (list dirent) :=
  Resolved sample_root.

Definition sample_results : list grep_match :=
  [mkGrepMatch ["a.ts"] 1 "foo"; mkGrepMatch ["src"; "b.ts"] 1 "foo2"].

Lemma grep_results_bounded_witness :
  fst (grep sample_RegExp sample_readdir "foo" None None (mkSearchState [] 0)) =
    Resolved sample_results /\
  (zlen sample_results <= Z.max 0 (coalesce (opt_get go_limit None) 50))%Z.
Proof.
  split; [vm_compute; reflexivity |].
  apply (grep_results_bounded sample_RegExp sample_readdir "foo" None None
           (mkSearchState [] 0)).
  vm_compute. reflexivity.
Defined.

Lemma grep_results_sound_witness :
  sample_RegExp "foo" = Resolved (fun l => String.prefix "foo" (js_trim l)) /\
  sample_readdir (coalesce None []) = Resolved sample_root /\
  fst (grep sample_RegExp sample_readdir "foo" None None (mkSearchState [] 0)) =
    Resolved sample_results /\
  In (mkGrepMatch ["src"; "b.ts"] 1 "foo2") sample_results /\
  exists p c l, file_under sample_root p c /\
    gm_file (mkGrepMatch ["src"; "b.ts"] 1 "foo2") = (coalesce None [] ++ p)%list /\
    (1 <= gm_line (mkGrepMatch ["src"; "b.ts"] 1 "foo2"))%Z /\
    nth_error (split_nl c) (Z.to_nat (gm_line (mkGrepMatch ["src"; "b.ts"] 1 "foo2") - 1))
      = Some l /\
    String.prefix "foo" (js_trim l) = true /\
    gm_content (mkGrepMatch ["src"; "b.ts"] 1 "foo2") = js_trim l.
Proof.
  split; [reflexivity |]. split; [reflexivity |].
  split; [vm_compute; reflexivity |]. split; [right; left; reflexivity |].
  apply (grep_results_sound sample_RegExp sample_readdir "foo" None None
           (mkSearchState [] 0) (fun l => String.prefix "foo" (js_trim l))
           sample_root sample_results).
  - reflexivity.
  - reflexivity.
  - vm_compute. reflexivity.
  - right. left. reflexivity.
Defined.

Lemma grep_limit_prefix_witness :
  (0 <= 1 <= 2)%Z /\
  fst (grep sample_RegExp sample_readdir "foo" None (Some (mkGrepOptions (Some 2%Z)))
         (mkSearchState [] 0)) = Resolved sample_results /\
  fst (grep sample_RegExp sample_readdir "foo" None (Some (mkGrepOptions (Some 1%Z)))
         (mkSearchState [] 0)) = Resolved (firstn 1 sample_results).
Proof.
  split; [lia |]. split; [vm_compute; reflexivity |].
  apply (grep_limit_prefix sample_RegExp sample_readdir "foo" None (mkSearchState [] 0)
           1 2 sample_results); [lia |].
  vm_compute. reflexivity.
Defined.

End GrepFacts.

(* ================================================================== *)
(** * Helpers of the thread view (dashboard) *)

Module Dashboard.
Import Lineage.

(** [generations.find((g) => g.id === p)]: a [null] parent matches no row. *)
Fixpoint find_by_id (gens : list generation) (p : option string) : option generation :=
  match gens with
  | [] => None
  | g :: gs => if option_string_eqb (Some (id g)) p then Some g else find_by_id gs p
  end.

(** [g.type === 'debug'] *)
Definition is_debug (g : generation) : bool :=
  match type g with Debug => true | Final => false end.

(** [getFinalGenerations]: [generations.filter((g) => g.type === 'final')] *)
Definition getFinalGenerations (gens : list generation) : list generation :=
  filter (fun g => negb (is_debug g)) gens.

(** [getChildCount]: [generations.filter((g) => g.parentId === genId).length] *)
Definition getChildCount (gens : list generation) (genId : string) : nat :=
  length (filter (fun g => option_string_eqb (parentId g) (Some genId)) gens).

(** The [while (current)] loop of [getDebugChain], run for at most [fuel]
    iterations: [None] when it has not finished by then. *)
Fixpoint debug_chain_loop (fuel : nat) (gens : list generation) (current : generation)
  (chain : list generation) : option (list generation) :=
  match fuel with
  | O => None
  | S fuel' =>
      match find_by_id gens (parentId current) with
      | None => Some chain
      | Some parent =>
          let chain' := if is_debug parent then parent :: chain else chain in
          debug_chain_loop fuel' gens parent chain'
      end
  end.

(** [getDebugChain(generations, finalGen)] returns [chain]. *)
Definition getDebugChain_returns (gens : list generation) (finalGen : generation)
  (chain : list generation) : Prop :=
  exists fuel, debug_chain_loop fuel gens finalGen [] = Some chain.

(** [formatRelative(date)]: [time] is [new Date(date).getTime()] in
    milliseconds, [None] for an Invalid Date (whose time is NaN), and [now]
    is [new Date().getTime()].  On integer times below 2^45 ms the double
    quotient is floored exactly, so [Math.floor(x / k)] is the floor
    division [x / k].  With a NaN time every comparison is false and the
    result is [NaN + 'd ago']. *)
Definition formatRelative (time : option Z) (now : Z) : list piece :=
  match time with
  | None => [PStr "NaN"; PStr "d ago"]
  | Some t =>
      let diff := (now - t)%Z in
      let mins := (diff / 60000)%Z in
      if (mins <? 1)%Z then [PStr "Just now"]
      else if (mins <? 60)%Z then [PNum (IZR mins); PStr "m ago"]
      else
        let hours := (mins / 60)%Z in
        if (hours <? 24)%Z then [PNum (IZR hours); PStr "h ago"]
        else
          let days := (hours / 24)%Z in
          [PNum (IZR days); PStr "d ago"]
  end.

End Dashboard.

Module DashboardFacts.
Import Lineage LineageFacts Dashboard.

(** The rows [onStepFinish] inserts for the [executeCode] results [rs], the
    first with parent [p] and ids drawn from [nanoid i] on. *)
Fixpoint run_rows (nanoid : nat -> string) (tid instr : string) (p : option string)
  (i : nat) (rs : list tool_result) : list generation :=
  match rs with
  | [] => []
  | r :: rs' =>
      {| id := nanoid i; threadId := tid; parentId := p; type := Debug;
         prompt := instr; code := output_code r; imageData := output_imageData r |}
      :: run_rows nanoid tid instr (Some (nanoid i)) (S i) rs'
  end.

Lemma fold_record_rows (nanoid : nat -> string) (tid instr : string)
  (rs : list tool_result) : forall st : agent_state,
  forallb is_executeCode rs = true ->
  fold_left (record_result nanoid tid instr) rs st =
    {| db := (db st ++ run_rows nanoid tid instr (lastGenerationId st) (drawn st) rs)%list;
       lastGenerationId :=
         match rs with
         | [] => lastGenerationId st
         | _ => Some (nanoid (drawn st + length rs - 1))
         end;
       drawn := drawn st + length rs |}.
Proof.
  induction rs as [| r rs IH]; intros st Hall.
  - destruct st. simpl. rewrite app_nil_r, Nat.add_0_r. reflexivity.
  - simpl in Hall. apply andb_true_iff in Hall as [Hr Hall].
    simpl. unfold record_result at 2. unfold is_executeCode in Hr. rewrite Hr.
    rewrite IH by exact Hall. cbn [db lastGenerationId drawn].
    rewrite <- app_assoc. simpl. f_equal.
    + destruct rs; simpl; f_equal; f_equal; lia.
    + lia.
Qed.

Lemma forallb_filter_is_executeCode (rs : list tool_result) :
  forallb is_executeCode (filter is_executeCode rs) = true.
Proof.
  induction rs as [| r rs IH]; simpl; [reflexivity |].
  destruct (is_executeCode r) eqn:E; simpl; [rewrite E; exact IH | exact IH].
Qed.

(** The table after a run, before the last row is retagged. *)
Lemma run_generations_rows (nanoid : nat -> string) (tid instr : string)
  (parent : option string) (db0 : list generation) (steps : list (list tool_result)) :
  let rs := filter is_executeCode (concat steps) in
  run_generations nanoid tid instr parent db0 steps =
    mark_final parent
      {| db := (db0 ++ run_rows nanoid tid instr parent 0 rs)%list;
         lastGenerationId :=
           match rs with [] => parent | _ => Some (nanoid (length rs - 1)) end;
         drawn := length rs |}.
Proof.
  intro rs. unfold run_generations.
  rewrite fold_onStepFinish, fold_record_result_filter.
  rewrite fold_record_rows by apply forallb_filter_is_executeCode.
  reflexivity.
Qed.

Lemma run_rows_app (nanoid : nat -> string) (tid instr : string) (rs : list tool_result)
  (r : tool_result) : forall (p : option string) (i : nat),
  run_rows nanoid tid instr p i (rs ++ [r])%list =
    (run_rows nanoid tid instr p i rs ++
     [{| id := nanoid (i + length rs); threadId := tid;
         parentId := match rs with [] => p | _ => Some (nanoid (i + length rs - 1)) end;
         type := Debug; prompt := instr; code := output_code r;
         imageData := output_imageData r |}])%list.
Proof.
  induction rs as [| r0 rs IH]; intros p i; simpl.
  - rewrite Nat.add_0_r. reflexivity.
  - rewrite IH.
    assert (E1 : (S i + length rs = i + S (length rs))%nat) by lia.
    assert (E2 : match rs with
                 | [] => Some (nanoid i)
                 | _ :: _ => Some (nanoid (S i + length rs - 1))
                 end = Some (nanoid (i + S (length rs) - 1)))
      by (destruct rs; simpl; f_equal; f_equal; lia).
    rewrite E2, E1. reflexivity.
Qed.

Lemma run_rows_ids (nanoid : nat -> string) (tid instr : string) (rs : list tool_result) :
  forall (p : option string) (i : nat),
  map id (run_rows nanoid tid instr p i rs) = map nanoid (seq i (length rs)).
Proof.
  induction rs as [| r rs IH]; intros p i; simpl; [reflexivity | rewrite IH; reflexivity].
Qed.

Lemma run_rows_nth (nanoid : nat -> string) (tid instr : string) (rs : list tool_result) :
  forall (p : option string) (i j : nat) (g : generation),
  nth_error (run_rows nanoid tid instr p i rs) j = Some g ->
  id g = nanoid (i + j) /\ type g = Debug /\
  parentId g = match j with O => p | S j' => Some (nanoid (i + j')) end.
Proof.
  induction rs as [| r rs IH]; intros p i j g H; [destruct j; discriminate |].
  destruct j as [| j]; simpl in H.
  - injection H as <-. simpl. rewrite Nat.add_0_r. auto.
  - destruct (IH _ _ _ _ H) as [Hid [Ht Hp]].
    split; [rewrite Hid; f_equal; lia | split; [exact Ht |]].
    rewrite Hp. destruct j; f_equal; f_equal; lia.
Qed.

Lemma find_by_id_app_fresh (l1 l2 : list generation) (x : string) :
  ~ In x (map id l1) -> find_by_id (l1 ++ l2)%list (Some x) = find_by_id l2 (Some x).
Proof.
  induction l1 as [| g l1 IH]; intro Hx; simpl; [reflexivity |].
  simpl in Hx. destruct (String.eqb (id g) x) eqn:E.
  - apply String.eqb_eq in E. exfalso. apply Hx. left. exact E.
  - apply IH. intro; apply Hx; right; assumption.
Qed.

Lemma find_by_id_nodup (l : list generation) (j : nat) (g : generation) :
  NoDup (map id l) -> nth_error l j = Some g -> find_by_id l (Some (id g)) = Some g.
Proof.
  revert j. induction l as [| g0 l IH]; intros j Hnd Hj; [destruct j; discriminate |].
  simpl. inversion Hnd as [| ? ? Hnot Hnd']; subst.
  destruct j as [| j]; simpl in Hj.
  - injection Hj as <-. rewrite String.eqb_refl. reflexivity.
  - destruct (String.eqb (id g0) (id g)) eqn:E.
    + apply String.eqb_eq in E. exfalso. apply Hnot. rewrite E.
      apply in_map. eapply nth_error_In. exact Hj.
    + apply (IH j Hnd' Hj).
Qed.

Lemma find_by_id_None (l : list generation) : find_by_id l None = None.
Proof. induction l as [| g l IH]; simpl; [reflexivity | exact IH]. Qed.

Lemma firstn_S_nth {A} (l : list A) (n : nat) (x : A) :
  nth_error l n = Some x -> firstn (S n) l = (firstn n l ++ [x])%list.
Proof.
  revert n. induction l as [| y l IH]; intros n H; [destruct n; discriminate |].
  destruct n as [| n]; simpl in H.
  - injection H as <-. reflexivity.
  - change (y :: firstn (S n) l = (y :: firstn n l) ++ [x])%list.
    rewrite (IH n H). reflexivity.
Qed.

(** Walking up from a row whose parent is the [j]-th run row collects the
    run rows [0 .. j], oldest first. *)
Lemma debug_chain_walk (gens debugs : list generation) (nanoid : nat -> string)
  (Hfind : forall j g, nth_error debugs j = Some g -> find_by_id gens (Some (nanoid j)) = Some g)
  (Hrow : forall j g, nth_error debugs j = Some g ->
            type g = Debug /\
            parentId g = match j with O => None | S j' => Some (nanoid j') end) :
  forall j (cur : generation) (chain : list generation),
  (j < length debugs)%nat -> parentId cur = Some (nanoid j) ->
  debug_chain_loop (S (S j)) gens cur chain = Some (firstn (S j) debugs ++ chain)%list.
Proof.
  induction j as [| j IH]; intros cur chain Hj Hcur.
  - destruct (nth_error debugs 0) as [g |] eqn:E;
      [| apply nth_error_None in E; lia].
    destruct (Hrow 0%nat g E) as [Ht Hp].
    cbn [debug_chain_loop]. rewrite Hcur, (Hfind 0%nat g E).
    unfold is_debug. rewrite Ht, Hp, find_by_id_None.
    rewrite (firstn_S_nth debugs 0 g E). reflexivity.
  - destruct (nth_error debugs (S j)) as [g |] eqn:E;
      [| apply nth_error_None in E; lia].
    destruct (Hrow (S j) g E) as [Ht Hp].
    cbn [debug_chain_loop]. rewrite Hcur, (Hfind (S j) g E).
    unfold is_debug. rewrite Ht.
    change (debug_chain_loop (S (S j)) gens g (g :: chain) =
            Some (firstn (S (S j)) debugs ++ chain)%list).
    rewrite (IH g (g :: chain) ltac:(lia) Hp).
    rewrite (firstn_S_nth debugs (S j) g E), <- app_assoc. reflexivity.
Qed.

Definition retag_final (g : generation) : generation :=
  {| id := id g; threadId := threadId g; parentId := parentId g; type := Final;
     prompt := prompt g; code := code g; imageData := imageData g |}.

Lemma set_final_rows (x : string) (l : list generation) (g : generation) :
  ~ In x (map id l) -> id g = x ->
  set_final x (l ++ [g])%list = (l ++ [retag_final g])%list.
Proof.
  intros Hx Hg. unfold set_final. rewrite map_app. fold (set_final x l).
  rewrite set_final_fresh by exact Hx. simpl. rewrite <- Hg, String.eqb_refl. reflexivity.
Qed.

(** The table after a run with [k >= 1] [executeCode] results and fresh
    ids: the old rows, [k - 1] debug rows and the final row. *)
Lemma run_generations_shape (nanoid : nat -> string) (tid instr : string)
  (parent : option string) (db0 : list generation) (steps : list (list tool_result))
  (rs' : list tool_result) (rl : tool_result)
  (Hrs : filter is_executeCode (concat steps) = (rs' ++ [rl])%list)
  (Hnd : NoDup (map nanoid (seq 0 (S (length rs')))))
  (Hne : nanoid (length rs') <> "")
  (Hparent : parent <> Some (nanoid (length rs')))
  (Hfresh : forall i, (i <= length rs')%nat -> ~ In (nanoid i) (map id db0)) :
  run_generations nanoid tid instr parent db0 steps =
    (db0 ++ run_rows nanoid tid instr parent 0 rs' ++
     [retag_final {| id := nanoid (length rs'); threadId := tid;
                     parentId := match rs' with
                                 | [] => parent
                                 | _ => Some (nanoid (length rs' - 1))
                                 end;
                     type := Debug; prompt := instr; code := output_code rl;
                     imageData := output_imageData rl |}])%list.
Proof.
  rewrite run_generations_rows, Hrs, run_rows_app. cbn [Nat.add].
  rewrite length_app. cbn [length]. rewrite Nat.add_1_r.
  destruct (rs' ++ [rl])%list eqn:E; [destruct rs'; discriminate |].
  unfold mark_final. cbn [lastGenerationId db].
  replace (S (length rs') - 1)%nat with (length rs') by lia.
  assert (Hg : String.eqb (nanoid (length rs')) "" = false) by (apply String.eqb_neq; exact Hne).
  assert (Hp : option_string_eqb (Some (nanoid (length rs'))) parent = false).
  { destruct parent as [p |]; simpl; [| reflexivity].
    apply String.eqb_neq. intro Heq. apply Hparent. rewrite Heq. reflexivity. }
  rewrite Hg, Hp. simpl negb. cbn [andb].
  rewrite !app_assoc. apply set_final_rows; [| reflexivity].
  rewrite map_app, run_rows_ids. intro Hin. apply in_app_or in Hin as [Hin | Hin].
  - exact (Hfresh (length rs') ltac:(lia) Hin).
  - rewrite seq_S in Hnd. rewrite map_app in Hnd. simpl in Hnd.
    apply NoDup_remove_2 in Hnd. rewrite app_nil_r in Hnd. exact (Hnd Hin).
Qed.

(** After a run started without a parent generation (as [runThread] and
    [continueFromGeneration] start it), the thread view's [getDebugChain]
    of the run's final generation returns the run's [k - 1] debug
    generations, oldest first.  Ids drawn from [nanoid] are assumed fresh. *)
Theorem getDebugChain_of_run (nanoid : nat -> string) (tid instr : string)
  (db0 : list generation) (steps : list (list tool_result))
  (Hk : filter is_executeCode (concat steps) <> [])
  (Hnd : NoDup (map nanoid (seq 0 (length (filter is_executeCode (concat steps))))))
  (Hne : nanoid (length (filter is_executeCode (concat steps)) - 1) <> "")
  (Hfresh : forall i, (i < length (filter is_executeCode (concat steps)))%nat ->
              ~ In (nanoid i) (map id db0)) :
  let rows := run_generations nanoid tid instr None db0 steps in
  exists debugs final,
    rows = (db0 ++ debugs ++ [final])%list /\
    type final = Final /\ Forall (fun g => type g = Debug) debugs /\
    length debugs = (length (filter is_executeCode (concat steps)) - 1)%nat /\
    getDebugChain_returns rows final debugs.
Proof.
  intro rows.
  destruct (exists_last Hk) as [rs' [rl Hrs]].
  rewrite Hrs in Hnd, Hne, Hfresh. rewrite length_app in Hnd, Hne, Hfresh.
  cbn [length] in Hnd, Hne, Hfresh. rewrite Nat.add_1_r in Hnd, Hfresh.
  replace (length rs' + 1 - 1)%nat with (length rs') in Hne by lia.
  set (final := retag_final {| id := nanoid (length rs'); threadId := tid;
                     parentId := match rs' with
                                 | [] => None
                                 | _ => Some (nanoid (length rs' - 1))
                                 end;
                     type := Debug; prompt := instr; code := output_code rl;
                     imageData := output_imageData rl |}).
  set (debugs := run_rows nanoid tid instr None 0 rs').
  assert (Hrows : rows = (db0 ++ debugs ++ [final])%list).
  { unfold rows. apply (run_generations_shape nanoid tid instr None db0 steps rs' rl Hrs Hnd Hne);
      [discriminate | intros i Hi; apply Hfresh; lia]. }
  assert (Hrow : forall j g, nth_error debugs j = Some g ->
            id g = nanoid j /\ type g = Debug /\
            parentId g = match j with O => None | S j' => Some (nanoid j') end).
  { intros j g Hj. apply (run_rows_nth nanoid tid instr rs' None 0 j g Hj). }
  exists debugs, final. split; [exact Hrows |]. split; [reflexivity |].
  split.
  { apply Forall_forall. intros g Hg. apply In_nth_error in Hg as [j Hj].
    apply (Hrow j g Hj). }
  split.
  { unfold debugs. rewrite Hrs, length_app. simpl.
    assert (H := run_rows_ids nanoid tid instr rs' None 0).
    apply (f_equal (@length string)) in H. rewrite !length_map, length_seq in H. lia. }
  assert (Hids : map id (debugs ++ [final])%list = map nanoid (seq 0 (S (length rs')))).
  { rewrite map_app. unfold debugs. rewrite run_rows_ids, seq_S, map_app. reflexivity. }
  assert (Hfind : forall j g, nth_error debugs j = Some g ->
            find_by_id rows (Some (nanoid j)) = Some g).
  { intros j g Hj. destruct (Hrow j g Hj) as [Hid _].
    assert (Hjl : (j < length rs')%nat).
    { assert (Hjl : (j < length debugs)%nat) by (apply nth_error_Some; rewrite Hj; discriminate).
      unfold debugs in Hjl.
      assert (H := run_rows_ids nanoid tid instr rs' None 0).
      apply (f_equal (@length string)) in H. rewrite !length_map, length_seq in H. lia. }
    rewrite Hrows, find_by_id_app_fresh by (apply Hfresh; lia).
    rewrite <- Hid. apply (find_by_id_nodup _ j); [rewrite Hids; exact Hnd |].
    rewrite nth_error_app1; [exact Hj | apply nth_error_Some; rewrite Hj; discriminate]. }
  destruct rs' as [| r0 rs0] eqn:Ers.
  - exists 1%nat. simpl. rewrite find_by_id_None. reflexivity.
  - exists (S (S (length rs0 - 0)))%nat.
    assert (Hlen : length debugs = S (length rs0)).
    { unfold debugs. assert (H := run_rows_ids nanoid tid instr (r0 :: rs0) None 0).
      apply (f_equal (@length string)) in H. rewrite !length_map, length_seq in H.
      simpl in H |- *. exact H. }
    rewrite (debug_chain_walk rows debugs nanoid
               (fun j g Hj => Hfind j g Hj)
               (fun j g Hj => proj2 (Hrow j g Hj))
               (length rs0 - 0) final [] ltac:(lia)).
    + rewrite app_nil_r, firstn_all2 by lia. reflexivity.
    + unfold final. simpl. rewrite Nat.sub_0_r. reflexivity.
Qed.

Lemma getDebugChain_of_run_witness :
  let db0 := [{| id := "z"; threadId := "t0"; parentId := None; type := Final;
                 prompt := "old"; code := "c0"; imageData := "png" |}] in
  let steps := [[exec_result "v1"];
                [{| toolName := "listFiles"; output_code := ""; output_imageData := "" |}];
                [exec_result "v2"; exec_result "v3"]] in
  filter is_executeCode (concat steps) <> [] /\
  NoDup (map ids_abc (seq 0 (length (filter is_executeCode (concat steps))))) /\
  ids_abc (length (filter is_executeCode (concat steps)) - 1) <> "" /\
  (forall i, (i < length (filter is_executeCode (concat steps)))%nat ->
     ~ In (ids_abc i) (map id db0)) /\
  (let rows := run_generations ids_abc "t" "draw" None db0 steps in
   exists debugs final,
     rows = (db0 ++ debugs ++ [final])%list /\
     type final = Final /\ Forall (fun g => type g = Debug) debugs /\
     length debugs = (length (filter is_executeCode (concat steps)) - 1)%nat /\
     getDebugChain_returns rows final debugs).
Proof.
  intros db0 steps.
  assert (Hk : filter is_executeCode (concat steps) <> []) by (simpl; discriminate).
  assert (Hnd : NoDup (map ids_abc (seq 0 (length (filter is_executeCode (concat steps)))))).
  { simpl. repeat constructor; simpl; intuition discriminate. }
  assert (Hne : ids_abc (length (filter is_executeCode (concat steps)) - 1) <> "")
    by (simpl; discriminate).
  assert (Hfresh : forall i, (i < length (filter is_executeCode (concat steps)))%nat ->
                     ~ In (ids_abc i) (map id db0)).
  { simpl. intros i Hi. destruct i as [| [| [| i]]]; simpl; intuition discriminate. }
  split; [exact Hk |]. split; [exact Hnd |]. split; [exact Hne |]. split; [exact Hfresh |].
  exact (getDebugChain_of_run ids_abc "t" "draw" db0 steps Hk Hnd Hne Hfresh).
Defined.

Lemma div_ltb_mul (x k c : Z) : (0 < k)%Z -> ((x / k <? c) = (x <? c * k))%Z.
Proof.
  intro Hk. pose proof (Z.div_mod x k ltac:(lia)) as Hx. pose proof (Z.mod_pos_bound x k Hk).
  destruct (Z.ltb_spec (x / k) c), (Z.ltb_spec x (c * k)); [reflexivity | nia | nia | reflexivity].
Qed.

(** [formatRelative] picks its unit from the elapsed time directly: under a
    minute (a future date included) it says [Just now]; under an hour, the
    whole minutes; under a day, the whole hours; otherwise the whole days,
    each floored from the elapsed milliseconds.  An invalid date gives
    [NaNd ago]. *)
Theorem formatRelative_units (t now : Z) :
  let diff := (now - t)%Z in
  formatRelative (Some t) now =
    (if (diff <? 60000)%Z then [PStr "Just now"]
     else if (diff <? 3600000)%Z then [PNum (IZR (diff / 60000)); PStr "m ago"]
     else if (diff <? 86400000)%Z then [PNum (IZR (diff / 3600000)); PStr "h ago"]
     else [PNum (IZR (diff / 86400000)); PStr "d ago"]) /\
  formatRelative None now = [PStr "NaN"; PStr "d ago"].
Proof.
  intro diff. split; [| reflexivity].
  unfold formatRelative. fold diff.
  assert (Hh : (diff / 60000 / 60 = diff / 3600000)%Z) by (rewrite Z.div_div; [reflexivity | lia | lia]).
  assert (Hd : (diff / 3600000 / 24 = diff / 86400000)%Z) by (rewrite Z.div_div; [reflexivity | lia | lia]).
  cbv zeta. rewrite Hh, Hd.
  rewrite (div_ltb_mul diff 60000 1), (div_ltb_mul diff 60000 60), (div_ltb_mul diff 3600000 24)
    by lia.
  reflexivity.
Qed.

(** [getDebugChain] never returns when the parent links starting at the
    given generation run into a cycle: if every generation of a set has its
    parent among the rows and in the set, the [while] loop started at a
    member of the set never ends. *)
Theorem getDebugChain_cycle_diverges (gens : list generation) (P : generation -> Prop)
  (Hclosed : forall x, P x -> exists y, find_by_id gens (parentId x) = Some y /\ P y)
  (g : generation) (Hg : P g) :
  ~ exists chain, getDebugChain_returns gens g chain.
Proof.
  intros [chain [fuel Hfuel]].
  assert (H : forall fuel x acc, P x -> debug_chain_loop fuel gens x acc = None).
  { induction fuel0 as [| fuel0 IH]; intros x acc Hx; [reflexivity |].
    destruct (Hclosed x Hx) as [y [Hy HPy]]. simpl. rewrite Hy. apply IH. exact HPy. }
  rewrite H in Hfuel by exact Hg. discriminate.
Qed.

Lemma getDebugChain_cycle_diverges_witness :
  let a := {| id := "a"; threadId := "t"; parentId := Some "b"; type := Debug;
              prompt := "p"; code := "c"; imageData := "png" |} in
  let b := {| id := "b"; threadId := "t"; parentId := Some "a"; type := Debug;
              prompt := "p"; code := "c"; imageData := "png" |} in
  (forall x, In x [a; b] -> exists y, find_by_id [a; b] (parentId x) = Some y /\ In y [a; b]) /\
  In a [a; b] /\
  ~ exists chain, getDebugChain_returns [a; b] a chain.
Proof.
  intros a b.
  assert (Hc : forall x, In x [a; b] ->
                 exists y, find_by_id [a; b] (parentId x) = Some y /\ In y [a; b]).
  { intros x [<- | [<- | []]]; [exists b | exists a]; split; simpl; auto. }
  assert (Ha : In a [a; b]) by (left; reflexivity).
  split; [exact Hc |]. split; [exact Ha |].
  exact (getDebugChain_cycle_diverges [a; b] (fun x => In x [a; b]) Hc a Ha).
Defined.

Lemma run_rows_length (nanoid : nat -> string) (tid instr : string) (rs : list tool_result)
  (p : option string) (i : nat) :
  length (run_rows nanoid tid instr p i rs) = length rs.
Proof.
  assert (H := run_rows_ids nanoid tid instr rs p i).
  apply (f_equal (@length string)) in H. rewrite !length_map, length_seq in H. exact H.
Qed.

Lemma map_parentId_run_rows (nanoid : nat -> string) (tid instr : string)
  (rs : list tool_result) : forall (p : option string) (i : nat),
  map parentId (run_rows nanoid tid instr p i rs) =
    removelast (p :: map (fun j => Some (nanoid j)) (seq i (length rs))).
Proof.
  induction rs as [| r rs IH]; intros p i; [reflexivity |].
  cbn [run_rows map length seq]. rewrite IH. reflexivity.
Qed.

Lemma option_string_eqb_true (a b : option string) : option_string_eqb a b = true -> a = b.
Proof.
  destruct a as [x |], b as [y |]; simpl; intro H; try discriminate; [| reflexivity].
  apply String.eqb_eq in H. rewrite H. reflexivity.
Qed.

Lemma getChildCount_parents (gens : list generation) (x : string) :
  getChildCount gens x =
    length (filter (fun p => option_string_eqb p (Some x)) (map parentId gens)).
Proof.
  unfold getChildCount. induction gens as [| g gens IH]; simpl; [reflexivity |].
  destruct (option_string_eqb (parentId g) (Some x)); simpl; rewrite IH; reflexivity.
Qed.

Lemma count_some_ids (nanoid : nat -> string) (l : list nat) (j : nat) :
  NoDup (map nanoid l) ->
  length (filter (fun p => option_string_eqb p (Some (nanoid j)))
            (map (fun i => Some (nanoid i)) l)) =
    if in_dec string_dec (nanoid j) (map nanoid l) then 1%nat else 0%nat.
Proof.
  induction l as [| a l IH]; intro Hnd; [reflexivity |].
  inversion Hnd as [| ? ? Hnot Hnd']; subst. cbn [map filter option_string_eqb].
  destruct (String.eqb (nanoid a) (nanoid j)) eqn:E; cbn [length]; rewrite IH by exact Hnd'.
  - apply String.eqb_eq in E.
    destruct (in_dec string_dec (nanoid j) (map nanoid l)) as [Hin | _];
      [rewrite <- E in Hin; contradiction |].
    destruct (in_dec string_dec (nanoid j) (nanoid a :: map nanoid l)) as [_ | Hn];
      [reflexivity | exfalso; apply Hn; left; exact E].
  - apply String.eqb_neq in E.
    destruct (in_dec string_dec (nanoid j) (map nanoid l)) as [Hin | Hn1];
      destruct (in_dec string_dec (nanoid j) (nanoid a :: map nanoid l)) as [Hin2 | Hn2];
      try reflexivity.
    + exfalso. apply Hn2. right. exact Hin.
    + exfalso. destruct Hin2 as [H | H]; [apply E; exact H | apply Hn1; exact H].
Qed.

Lemma filter_all_false {A} (f : A -> bool) (l : list A) :
  (forall x, In x l -> f x = false) -> filter f l = [].
Proof.
  induction l as [| x l IH]; intro H; simpl; [reflexivity |].
  rewrite H by (left; reflexivity). apply IH. intros y Hy. apply H. right. exact Hy.
Qed.

Lemma count_old_rows (db0 : list generation) (x : string) :
  (forall g, In g db0 -> parentId g <> Some x) ->
  filter (fun p => option_string_eqb p (Some x)) (map parentId db0) = [].
Proof.
  induction db0 as [| g db0 IH]; intro Hold; simpl; [reflexivity |].
  destruct (option_string_eqb (parentId g) (Some x)) eqn:E.
  - apply option_string_eqb_true in E. exfalso. apply (Hold g); [left; reflexivity | exact E].
  - apply IH. intros g' Hg'. apply Hold. right. exact Hg'.
Qed.

(** What the thread view counts after a run started without a parent,
    with fresh ids and no old row pointing at them: the run adds exactly one
    generation to [getFinalGenerations], its last one; [getChildCount] gives
    each debug generation of the run exactly one child and the final one
    none. *)
Theorem run_view_counts (nanoid : nat -> string) (tid instr : string)
  (db0 : list generation) (steps : list (list tool_result))
  (Hk : filter is_executeCode (concat steps) <> [])
  (Hnd : NoDup (map nanoid (seq 0 (length (filter is_executeCode (concat steps))))))
  (Hne : nanoid (length (filter is_executeCode (concat steps)) - 1) <> "")
  (Hfresh : forall i, (i < length (filter is_executeCode (concat steps)))%nat ->
              ~ In (nanoid i) (map id db0))
  (Hold : forall g i, In g db0 -> (i < length (filter is_executeCode (concat steps)))%nat ->
            parentId g <> Some (nanoid i)) :
  let rows := run_generations nanoid tid instr None db0 steps in
  exists debugs final,
    rows = (db0 ++ debugs ++ [final])%list /\
    getFinalGenerations rows = (getFinalGenerations db0 ++ [final])%list /\
    Forall (fun g => getChildCount rows (id g) = 1%nat) debugs /\
    getChildCount rows (id final) = 0%nat.
Proof.
  intro rows.
  destruct (exists_last Hk) as [rs' [rl Hrs]].
  rewrite Hrs in Hnd, Hne, Hfresh, Hold. rewrite length_app in Hnd, Hne, Hfresh, Hold.
  cbn [length] in Hnd, Hne, Hfresh, Hold. rewrite Nat.add_1_r in Hnd, Hfresh, Hold.
  replace (length rs' + 1 - 1)%nat with (length rs') in Hne by lia.
  set (last_row := {| id := nanoid (length rs'); threadId := tid;
                      parentId := match rs' with
                                  | [] => None
                                  | _ => Some (nanoid (length rs' - 1))
                                  end;
                      type := Debug; prompt := instr; code := output_code rl;
                      imageData := output_imageData rl |}).
  set (debugs := run_rows nanoid tid instr None 0 rs').
  assert (Hrows : rows = (db0 ++ debugs ++ [retag_final last_row])%list).
  { unfold rows. apply (run_generations_shape nanoid tid instr None db0 steps rs' rl Hrs Hnd Hne);
      [discriminate | intros i Hi; apply Hfresh; lia]. }
  assert (Hpar : map parentId (debugs ++ [retag_final last_row])%list =
                   None :: map (fun j => Some (nanoid j)) (seq 0 (length rs'))).
  { replace (map parentId (debugs ++ [retag_final last_row])%list)
      with (map parentId (debugs ++ [last_row])%list) by (rewrite !map_app; reflexivity).
    unfold debugs, last_row. rewrite <- (Nat.add_0_l (length rs')) at 1.
    replace (match rs' with [] => None | _ :: _ => Some (nanoid (length rs' - 1)) end)
      with (match rs' with [] => None | _ :: _ => Some (nanoid (0 + length rs' - 1)) end)
      by reflexivity.
    rewrite <- run_rows_app, map_parentId_run_rows, length_app. cbn [length].
    rewrite Nat.add_1_r, seq_S, map_app. cbn [map].
    change (None :: map (fun j => Some (nanoid j)) (seq 0 (length rs')) ++
              [Some (nanoid (0 + length rs'))])%list
      with ((None :: map (fun j => Some (nanoid j)) (seq 0 (length rs'))) ++
              [Some (nanoid (0 + length rs'))])%list.
    apply removelast_last. }
  assert (Hnd' : NoDup (map nanoid (seq 0 (length rs')))).
  { rewrite seq_S, map_app in Hnd. apply NoDup_app_remove_r in Hnd. exact Hnd. }
  assert (Hlast : ~ In (nanoid (length rs')) (map nanoid (seq 0 (length rs')))).
  { rewrite seq_S, map_app in Hnd. simpl in Hnd. apply NoDup_remove_2 in Hnd.
    rewrite app_nil_r in Hnd. exact Hnd. }
  assert (Hcount : forall x, (forall g, In g db0 -> parentId g <> Some x) ->
            getChildCount rows x =
              length (filter (fun p => option_string_eqb p (Some x))
                        (map (fun j => Some (nanoid j)) (seq 0 (length rs'))))).
  { intros x Hx. rewrite getChildCount_parents, Hrows, map_app, filter_app,
      count_old_rows by exact Hx.
    rewrite Hpar. reflexivity. }
  exists debugs, (retag_final last_row). split; [exact Hrows |]. split; [| split].
  - rewrite Hrows. unfold getFinalGenerations. rewrite !filter_app. f_equal.
    assert (Hd : filter (fun g => negb (is_debug g)) debugs = []).
    { apply filter_all_false. intros g Hg. apply In_nth_error in Hg as [j Hj].
      destruct (run_rows_nth nanoid tid instr rs' None 0 j g Hj) as [_ [Ht _]].
      unfold is_debug. rewrite Ht. reflexivity. }
    rewrite Hd. reflexivity.
  - apply Forall_forall. intros g Hg. apply In_nth_error in Hg as [j Hj].
    destruct (run_rows_nth nanoid tid instr rs' None 0 j g Hj) as [Hid _].
    assert (Hjl : (j < length rs')%nat).
    { assert (Hjd : (j < length debugs)%nat) by (apply nth_error_Some; rewrite Hj; discriminate).
      unfold debugs in Hjd. rewrite run_rows_length in Hjd. exact Hjd. }
    rewrite Hid. cbn [Nat.add].
    rewrite Hcount by (intros g0 Hg0; apply (Hold g0 j Hg0); lia).
    rewrite count_some_ids by exact Hnd'.
    destruct (in_dec string_dec (nanoid j) (map nanoid (seq 0 (length rs')))) as [_ | n];
      [reflexivity |].
    exfalso. apply n. apply in_map. apply in_seq. lia.
  - cbn [id retag_final last_row].
    rewrite Hcount by (intros g0 Hg0; apply (Hold g0 (length rs') Hg0); lia).
    rewrite count_some_ids by exact Hnd'.
    destruct (in_dec string_dec (nanoid (length rs')) (map nanoid (seq 0 (length rs'))));
      [contradiction | reflexivity].
Qed.

Lemma run_view_counts_witness :
  let db0 := [{| id := "z"; threadId := "t0"; parentId := None; type := Final;
                 prompt := "old"; code := "c0"; imageData := "png" |}] in
  let steps := [[exec_result "v1"]; [exec_result "v2"; exec_result "v3"]] in
  filter is_executeCode (concat steps) <> [] /\
  NoDup (map ids_abc (seq 0 (length (filter is_executeCode (concat steps))))) /\
  ids_abc (length (filter is_executeCode (concat steps)) - 1) <> "" /\
  (forall i, (i < length (filter is_executeCode (concat steps)))%nat ->
     ~ In (ids_abc i) (map id db0)) /\
  (forall g i, In g db0 -> (i < length (filter is_executeCode (concat steps)))%nat ->
     parentId g <> Some (ids_abc i)) /\
  (let rows := run_generations ids_abc "t" "draw" None db0 steps in
   exists debugs final,
     rows = (db0 ++ debugs ++ [final])%list /\
     getFinalGenerations rows = (getFinalGenerations db0 ++ [final])%list /\
     Forall (fun g => getChildCount rows (id g) = 1%nat) debugs /\
     getChildCount rows (id final) = 0%nat).
Proof.
  intros db0 steps.
  assert (Hk : filter is_executeCode (concat steps) <> []) by (simpl; discriminate).
  assert (Hnd : NoDup (map ids_abc (seq 0 (length (filter is_executeCode (concat steps)))))).
  { simpl. repeat constructor; simpl; intuition discriminate. }
  assert (Hne : ids_abc (length (filter is_executeCode (concat steps)) - 1) <> "")
    by (simpl; discriminate).
  assert (Hfresh : forall i, (i < length (filter is_executeCode (concat steps)))%nat ->
                     ~ In (ids_abc i) (map id db0)).
  { simpl. intros i Hi. destruct i as [| [| [| i]]]; simpl; intuition discriminate. }
  assert (Hold : forall g i, In g db0 ->
                   (i < length (filter is_executeCode (concat steps)))%nat ->
                   parentId g <> Some (ids_abc i)).
  { intros g i [<- | []] _. discriminate. }
  split; [exact Hk |]. split; [exact Hnd |]. split; [exact Hne |].
  split; [exact Hfresh |]. split; [exact Hold |].
  exact (run_view_counts ids_abc "t" "draw" db0 steps Hk Hnd Hne Hfresh Hold).
Defined.

End DashboardFacts.

(* ------------------------------------------------------------------ *)
(** ** The tRPC router (trpc.ts) over the [thread] and [generation] tables *)

Module Router.
Import Lineage.

(** A row of the [thread] table.  [createdAt] and [updatedAt] only order
    query results and are left out. *)
Record thread_row := mkThreadRow {
  thread_id : string;
  thread_userId : string;
  thread_prompt : string;
  thread_status : string;
  thread_deletedAt : option Z
}.

Record database := mkDatabase {
  threads : list thread_row;
  generations : list generation
}.

(** A rejected procedure call: a [TRPCError] with its code and message, or
    a failed zod parse of the input, which tRPC reports with code
    [BAD_REQUEST] and zod's list of issues as message. *)
Inductive failure :=
| TRPCError (code message : string)
| InputValidation.

Definition failure_code (f : failure) : string :=
  match f with
  | TRPCError c _ => c
  | InputValidation => "BAD_REQUEST"
  end.

Inductive result (A : Type) :=
| Ok (a : A)
| Err (f : failure).
Arguments Ok {A} a.
Arguments Err {A} f.

(** [new UnauthorizedError()], thrown by [authedProcedure] when
    [ctx.user] is null.  The context carries the user's id. *)
Definition unauthorized : failure := TRPCError "UNAUTHORIZED" "Not authenticated".

Definition thread_not_found : failure := TRPCError "NOT_FOUND" "Thread not found".
Definition generation_not_found : failure := TRPCError "NOT_FOUND" "Generation not found".
Definition already_running : failure := TRPCError "BAD_REQUEST" "Thread already running".

(** [error instanceof Error ? error.message : 'Unknown error'] *)
Definition internal_message (e : thrown) : string :=
  match e with
  | JsError _ msg => msg
  | JsString _ => "Unknown error"
  end.

(** [db.update(thread).set({ status: s }).where(eq(thread.id, tid))] *)
Definition set_status (tid s : string) (ts : list thread_row) : list thread_row :=
  map (fun t => if String.eqb (thread_id t) tid then
                  {| thread_id := thread_id t; thread_userId := thread_userId t;
                     thread_prompt := thread_prompt t; thread_status := s;
                     thread_deletedAt := thread_deletedAt t |}
                else t) ts.

(** [db.update(thread).set({ deletedAt: new Date() }).where(eq(thread.id, tid))] *)
Definition set_deletedAt (tid : string) (now : Z) (ts : list thread_row) : list thread_row :=
  map (fun t => if String.eqb (thread_id t) tid then
                  {| thread_id := thread_id t; thread_userId := thread_userId t;
                     thread_prompt := thread_prompt t; thread_status := thread_status t;
                     thread_deletedAt := Some now |}
                else t) ts.

Definition with_threads (d : database) (ts : list thread_row) : database :=
  {| threads := ts; generations := generations d |}.

(** [db.query.thread.findFirst({ where: eq(thread.id, tid) })] *)
Definition find_thread (ts : list thread_row) (tid : string) : option thread_row :=
  find (fun t => String.eqb (thread_id t) tid) ts.

(** [isNull(thread.deletedAt)] *)
Definition is_live (t : thread_row) : bool :=
  match thread_deletedAt t with None => true | Some _ => false end.

(** [findFirst({ where: and(eq(thread.id, tid), isNull(thread.deletedAt)) })] *)
Definition find_live_thread (ts : list thread_row) (tid : string) : option thread_row :=
  find (fun t => String.eqb (thread_id t) tid && is_live t) ts.

(** [db.query.generation.findFirst({ where: eq(generation.id, gid) })] *)
Definition find_generation (gs : list generation) (gid : string) : option generation :=
  find (fun g => String.eqb (id g) gid) gs.

(** How the agent's [generateText] call ends: it resolves after the given
    steps, or rejects with [err] after the given steps have finished. *)
Inductive agent_outcome :=
| Completes (steps : list (list tool_result))
| Fails (steps : list (list tool_result)) (err : thrown).

(** [simpleImageEditorAgent(instruction, { threadId, parentId })]: the
    thread is marked running; each finished step's [executeCode] results are
    inserted by [onStepFinish]; when [generateText] resolves, the last
    generation is retagged final and the thread marked completed; when it
    rejects, the rejection propagates and nothing more is written.  The
    database writes themselves are taken to succeed. *)
Definition simpleImageEditorAgent (nanoid : nat -> string) (instruction tid : string)
  (parent : option string) (outcome : agent_outcome) (d : database)
  : promise string * database :=
  let ts := set_status tid "running" (threads d) in
  match outcome with
  | Completes steps =>
      (Resolved tid,
       {| threads := set_status tid "completed" ts;
          generations := run_generations nanoid tid instruction parent (generations d) steps |})
  | Fails steps err =>
      let st0 := {| db := generations d; lastGenerationId := parent; drawn := 0 |} in
      (Rejected err,
       {| threads := ts;
          generations := db (fold_left (onStepFinish nanoid tid instruction) steps st0) |})
  end.

(** The [try]/[catch] around the agent shared by [runThread] and
    [continueFromGeneration]: the thread [tid] is marked failed and an
    [INTERNAL_SERVER_ERROR] is thrown on a rejection. *)
Definition run_agent (nanoid : nat -> string) (instruction tid : string)
  (outcome : agent_outcome) (d : database) : result string * database :=
  match simpleImageEditorAgent nanoid instruction tid None outcome d with
  | (Resolved _, d') => (Ok "completed", d')
  | (Rejected e, d') =>
      (Err (TRPCError "INTERNAL_SERVER_ERROR" (internal_message e)),
       with_threads d' (set_status tid "failed" (threads d')))
  end.

(** [createThread]; [newId] is the id drawn from [nanoid()]. *)
Definition createThread (ctx : option string) (prompt : string) (newId : string)
  (d : database) : result string * database :=
  match ctx with
  | None => (Err unauthorized, d)
  | Some uid =>
      if String.eqb prompt "" then (Err InputValidation, d)
      else (Ok newId,
            {| threads := threads d ++ [{| thread_id := newId; thread_userId := uid;
                                            thread_prompt := prompt;
                                            thread_status := "pending";
                                            thread_deletedAt := None |}];
               generations := generations d |})
  end.

(** [getThread]; the thread's [generations] relation is not modelled. *)
Definition getThread (ctx : option string) (tid : string) (d : database)
  : result thread_row * database :=
  match ctx with
  | None => (Err unauthorized, d)
  | Some uid =>
      match find_live_thread (threads d) tid with
      | None => (Err thread_not_found, d)
      | Some t =>
          if negb (String.eqb (thread_userId t) uid) then (Err thread_not_found, d)
          else (Ok t, d)
      end
  end.

(** [runThread]: the agent is called without a [parentId]. *)
Definition runThread (nanoid : nat -> string) (ctx : option string) (tid : string)
  (outcome : agent_outcome) (d : database) : result string * database :=
  match ctx with
  | None => (Err unauthorized, d)
  | Some uid =>
      match find_thread (threads d) tid with
      | None => (Err thread_not_found, d)
      | Some t =>
          if negb (String.eqb (thread_userId t) uid) then (Err thread_not_found, d)
          else if String.eqb (thread_status t) "running" then (Err already_running, d)
          else run_agent nanoid (thread_prompt t) tid outcome d
      end
  end.

(** [deleteThread]; [now] is [new Date()]. *)
Definition deleteThread (ctx : option string) (tid : string) (now : Z) (d : database)
  : result bool * database :=
  match ctx with
  | None => (Err unauthorized, d)
  | Some uid =>
      match find_live_thread (threads d) tid with
      | None => (Err thread_not_found, d)
      | Some t =>
          if negb (String.eqb (thread_userId t) uid) then (Err thread_not_found, d)
          else (Ok true, with_threads d (set_deletedAt tid now (threads d)))
      end
  end.

(** [continueFromGeneration]: the agent gets the generation's code and image
    as [initialCode] and [initialImage], which only shape the first
    message, and no [parentId].  The [thread] relation of a generation whose
    thread is missing is [null], and reading its [userId] throws a
    [TypeError], which tRPC reports as an [INTERNAL_SERVER_ERROR]. *)
Definition continueFromGeneration (nanoid : nat -> string) (ctx : option string)
  (generationId prompt : string) (outcome : agent_outcome) (d : database)
  : result string * database :=
  match ctx with
  | None => (Err unauthorized, d)
  | Some uid =>
      if String.eqb prompt "" then (Err InputValidation, d)
      else
      match find_generation (generations d) generationId with
      | None => (Err generation_not_found, d)
      | Some g =>
          match find_thread (threads d) (threadId g) with
          | None => (Err (TRPCError "INTERNAL_SERVER_ERROR"
                            "Cannot read properties of null (reading 'userId')"), d)
          | Some t =>
              if negb (String.eqb (thread_userId t) uid) then (Err generation_not_found, d)
              else if String.eqb (thread_status t) "running" then (Err already_running, d)
              else run_agent nanoid prompt (threadId g) outcome d
          end
      end
  end.

End Router.

Module RouterFacts.
Import Lineage LineageFacts DashboardFacts Router.

Lemma find_map_same {A : Type} (P : A -> bool) (f : A -> A) (l : list A) :
  (forall x, P (f x) = P x) -> find P (map f l) = option_map f (find P l).
Proof.
  intro Hf. induction l as [| x l IH]; simpl; [reflexivity |].
  rewrite Hf. destruct (P x); [reflexivity | exact IH].
Qed.

Lemma find_thread_set_status (tid tid' s : string) (ts : list thread_row) :
  find_thread (set_status tid s ts) tid' =
    option_map (fun t => if String.eqb (thread_id t) tid then
                  {| thread_id := thread_id t; thread_userId := thread_userId t;
                     thread_prompt := thread_prompt t; thread_status := s;
                     thread_deletedAt := thread_deletedAt t |}
                else t) (find_thread ts tid').
Proof.
  unfold find_thread, set_status. apply find_map_same.
  intro t. destruct (String.eqb (thread_id t) tid); reflexivity.
Qed.

Lemma find_thread_set_deletedAt (tid tid' : string) (now : Z) (ts : list thread_row) :
  find_thread (set_deletedAt tid now ts) tid' =
    option_map (fun t => if String.eqb (thread_id t) tid then
                  {| thread_id := thread_id t; thread_userId := thread_userId t;
                     thread_prompt := thread_prompt t; thread_status := thread_status t;
                     thread_deletedAt := Some now |}
                else t) (find_thread ts tid').
Proof.
  unfold find_thread, set_deletedAt. apply find_map_same.
  intro t. destruct (String.eqb (thread_id t) tid); reflexivity.
Qed.

Lemma find_thread_id (ts : list thread_row) (tid : string) (t : thread_row) :
  find_thread ts tid = Some t -> thread_id t = tid.
Proof.
  intro H. unfold find_thread in H. apply find_some in H as [_ H].
  apply String.eqb_eq. exact H.
Qed.

Lemma set_status_others (tid s : string) (ts : list thread_row) :
  filter (fun t => negb (String.eqb (thread_id t) tid)) (set_status tid s ts) =
  filter (fun t => negb (String.eqb (thread_id t) tid)) ts.
Proof.
  induction ts as [| t ts IH]; simpl; [reflexivity |].
  destruct (String.eqb (thread_id t) tid) eqn:E; simpl; rewrite ?E; simpl;
    [exact IH | f_equal; exact IH].
Qed.

Lemma find_live_set_deletedAt (tid : string) (now : Z) (ts : list thread_row) :
  find_live_thread (set_deletedAt tid now ts) tid = None.
Proof.
  induction ts as [| t ts IH]; simpl; [reflexivity |].
  destruct (String.eqb (thread_id t) tid) eqn:E; simpl; rewrite ?E; simpl; exact IH.
Qed.

Lemma find_thread_live (ts : list thread_row) (tid : string) (t : thread_row) :
  NoDup (map thread_id ts) -> find_thread ts tid = Some t ->
  find_live_thread ts tid = if is_live t then Some t else None.
Proof.
  induction ts as [| t0 ts IH]; intros Hnd H; [discriminate |].
  inversion Hnd as [| ? ? Hnot Hnd']; subst. unfold find_thread in H. simpl in H.
  unfold find_live_thread. simpl.
  destruct (String.eqb (thread_id t0) tid) eqn:E.
  - injection H as <-. simpl. destruct (is_live t0); [reflexivity |].
    apply String.eqb_eq in E. subst tid.
    clear IH Hnd Hnd'. induction ts as [| t1 ts IH']; simpl; [reflexivity |].
    destruct (String.eqb (thread_id t1) (thread_id t0)) eqn:E1; simpl.
    + apply String.eqb_eq in E1. exfalso. apply Hnot. left. exact E1.
    + apply IH'. intro Hin. apply Hnot. right. exact Hin.
  - simpl. apply IH; assumption.
Qed.

Lemma find_live_app_fresh (ts : list thread_row) (t : thread_row) (tid : string) :
  ~ In tid (map thread_id ts) ->
  find_live_thread (ts ++ [t]) tid = find_live_thread [t] tid.
Proof.
  induction ts as [| t0 ts IH]; intro Hx; simpl; [reflexivity |].
  simpl in Hx. destruct (String.eqb (thread_id t0) tid) eqn:E.
  - apply String.eqb_eq in E. exfalso. apply Hx. left. exact E.
  - simpl. apply IH. intro; apply Hx; right; assumption.
Qed.

(** The table after [onStepFinish] has recorded the given steps. *)
Lemma fold_steps_rows (nanoid : nat -> string) (tid instr : string)
  (parent : option string) (db0 : list generation) (steps : list (list tool_result)) :
  db (fold_left (onStepFinish nanoid tid instr) steps
        {| db := db0; lastGenerationId := parent; drawn := 0 |}) =
    (db0 ++ run_rows nanoid tid instr parent 0 (filter is_executeCode (concat steps)))%list.
Proof.
  rewrite fold_onStepFinish, fold_record_result_filter.
  rewrite fold_record_rows by apply forallb_filter_is_executeCode.
  reflexivity.
Qed.

Lemma run_rows_fields (nanoid : nat -> string) (tid instr : string) (rs : list tool_result) :
  forall (p : option string) (i : nat),
  Forall (fun row => threadId row = tid /\ prompt row = instr /\ type row = Debug /\
            (parentId row = p \/
             exists j, (i <= j < i + length rs)%nat /\ parentId row = Some (nanoid j)))
    (run_rows nanoid tid instr p i rs).
Proof.
  induction rs as [| r rs IH]; intros p i; simpl; constructor.
  - simpl. auto.
  - eapply Forall_impl; [| apply IH]. simpl.
    intros row [H1 [H2 [H3 [H4 | [j [Hj H4]]]]]]; repeat split; auto.
    + right. exists i. split; [lia | exact H4].
    + right. exists j. split; [lia | exact H4].
Qed.

Lemma set_final_Forall (P : generation -> Prop) (x : string) (l : list generation) :
  (forall g, P g -> P (retag_final g)) -> Forall P l -> Forall P (set_final x l).
Proof.
  intros HP Hl. unfold set_final. apply Forall_map. eapply Forall_impl; [| exact Hl].
  intros g Hg. destruct (String.eqb (id g) x); [apply (HP g Hg) | exact Hg].
Qed.

Lemma set_final_app_fresh (x : string) (l1 l2 : list generation) :
  ~ In x (map id l1) -> set_final x (l1 ++ l2) = (l1 ++ set_final x l2)%list.
Proof.
  intro Hx. unfold set_final at 1. rewrite map_app. fold (set_final x l1).
  rewrite set_final_fresh by exact Hx. reflexivity.
Qed.

(** The rows a run started without a parent adds to the table, when the
    ids it draws are fresh: all of the thread and the instruction, the
    first without a parent, the others with a parent drawn by the run. *)
Lemma run_generations_none_rows (nanoid : nat -> string) (tid instr : string)
  (db0 : list generation) (steps : list (list tool_result))
  (Hfresh : forall i, (i < length (filter is_executeCode (concat steps)))%nat ->
              ~ In (nanoid i) (map id db0)) :
  exists rows,
    run_generations nanoid tid instr None db0 steps = (db0 ++ rows)%list /\
    Forall (fun row => threadId row = tid /\ prompt row = instr /\
              (parentId row = None \/
               exists j, (j < length (filter is_executeCode (concat steps)))%nat /\
                         parentId row = Some (nanoid j))) rows /\
    (forall row, hd_error rows = Some row -> parentId row = None) /\
    length rows = length (filter is_executeCode (concat steps)).
Proof.
  revert Hfresh. rewrite run_generations_rows. cbv zeta.
  destruct (filter is_executeCode (concat steps)) as [| r0 rs'] eqn:Ers; intro Hfresh.
  - exists []. unfold mark_final. simpl. repeat split; auto. discriminate.
  - assert (Hf := run_rows_fields nanoid tid instr (r0 :: rs') None 0).
    assert (Hf' : Forall (fun row => threadId row = tid /\ prompt row = instr /\
              (parentId row = None \/
               exists j, (j < length (r0 :: rs'))%nat /\ parentId row = Some (nanoid j)))
              (run_rows nanoid tid instr None 0 (r0 :: rs'))).
    { eapply Forall_impl; [| exact Hf]. intros row [H1 [H2 [_ [H4 | [j [Hj H4]]]]]];
        repeat split; auto. right. exists j. split; [lia | exact H4]. }
    assert (Hhd : forall row, hd_error (run_rows nanoid tid instr None 0 (r0 :: rs')) = Some row ->
              parentId row = None) by (intros row H; injection H as <-; reflexivity).
    unfold mark_final. cbn [lastGenerationId db].
    destruct (negb (String.eqb (nanoid (length (r0 :: rs') - 1)) "") &&
              negb (option_string_eqb (Some (nanoid (length (r0 :: rs') - 1))) None)).
    + rewrite set_final_app_fresh by (apply Hfresh; simpl; lia).
      eexists. split; [reflexivity |]. split; [| split].
      * apply set_final_Forall; [| exact Hf']. intros g Hg. exact Hg.
      * intros row H. unfold set_final in H. simpl in H.
        destruct (String.eqb _ _); injection H as <-; reflexivity.
      * unfold set_final. rewrite length_map, run_rows_length. reflexivity.
    + eexists. split; [reflexivity |]. split; [exact Hf' |]. split; [exact Hhd |].
      apply run_rows_length.
Qed.

(** A [runThread] call rejected for any reason other than a failed agent
    run (no user, an unknown thread, another user's thread, a thread
    already running) leaves both tables as they were. *)
Theorem runThread_rejection_keeps_database (nanoid : nat -> string) (ctx : option string)
  (tid : string) (outcome : agent_outcome) (d d' : database) (f : failure)
  (Hrun : runThread nanoid ctx tid outcome d = (Err f, d'))
  (Hcode : failure_code f <> "INTERNAL_SERVER_ERROR") :
  d' = d.
Proof.
  unfold runThread in Hrun.
  destruct ctx as [uid |]; [| injection Hrun as _ <-; reflexivity].
  destruct (find_thread (threads d) tid) as [t |]; [| injection Hrun as _ <-; reflexivity].
  destruct (negb _); [injection Hrun as _ <-; reflexivity |].
  destruct (String.eqb _ _); [injection Hrun as _ <-; reflexivity |].
  unfold run_agent, simpleImageEditorAgent in Hrun.
  destruct outcome; [discriminate |].
  injection Hrun as <- _. exfalso. apply Hcode. reflexivity.
Qed.

(** The same for [continueFromGeneration]: a call rejected for any reason
    other than a failed agent run (no user, an empty prompt, an unknown
    generation, another user's generation, a thread already running) leaves
    both tables as they were. *)
Theorem continueFromGeneration_rejection_keeps_database (nanoid : nat -> string)
  (ctx : option string) (gid pr : string) (outcome : agent_outcome) (d d' : database)
  (f : failure)
  (Hrun : continueFromGeneration nanoid ctx gid pr outcome d = (Err f, d'))
  (Hcode : failure_code f <> "INTERNAL_SERVER_ERROR") :
  d' = d.
Proof.
  unfold continueFromGeneration in Hrun.
  destruct ctx as [uid |]; [| injection Hrun as _ <-; reflexivity].
  destruct (String.eqb pr ""); [injection Hrun as _ <-; reflexivity |].
  destruct (find_generation (generations d) gid) as [g |]; [| injection Hrun as _ <-; reflexivity].
  destruct (find_thread (threads d) (threadId g)) as [t |]; [| injection Hrun as _ <-; reflexivity].
  destruct (negb _); [injection Hrun as _ <-; reflexivity |].
  destruct (String.eqb _ _); [injection Hrun as _ <-; reflexivity |].
  unfold run_agent, simpleImageEditorAgent in Hrun.
  destruct outcome; [discriminate |].
  injection Hrun as <- _. exfalso. apply Hcode. reflexivity.
Qed.

(** Running one's own thread that is not running: when the agent's run
    completes, the call returns [completed] and the thread's status is
    [completed]; when it rejects, the call throws [INTERNAL_SERVER_ERROR]
    with the error's message (or [Unknown error] for a thrown non-[Error])
    and the thread's status is [failed].  Other threads are untouched. *)
Theorem runThread_status (nanoid : nat -> string) (uid tid : string)
  (outcome : agent_outcome) (d d' : database) (t : thread_row) (r : result string)
  (Hfind : find_thread (threads d) tid = Some t) (Hown : thread_userId t = uid)
  (Hidle : thread_status t <> "running")
  (Hrun : runThread nanoid (Some uid) tid outcome d = (r, d')) :
  r = match outcome with
      | Completes _ => Ok "completed"
      | Fails _ e => Err (TRPCError "INTERNAL_SERVER_ERROR" (internal_message e))
      end /\
  option_map thread_status (find_thread (threads d') tid) =
    Some (match outcome with Completes _ => "completed" | Fails _ _ => "failed" end) /\
  filter (fun t => negb (String.eqb (thread_id t) tid)) (threads d') =
    filter (fun t => negb (String.eqb (thread_id t) tid)) (threads d).
Proof.
  assert (Htid := find_thread_id _ _ _ Hfind).
  unfold runThread in Hrun. rewrite Hfind, Hown, String.eqb_refl in Hrun.
  apply String.eqb_neq in Hidle. cbn [negb] in Hrun. rewrite Hidle in Hrun.
  unfold run_agent, simpleImageEditorAgent in Hrun.
  destruct outcome as [steps | steps e]; injection Hrun as <- <-; cbn [threads with_threads];
    (split; [reflexivity |]);
    (split; [rewrite !find_thread_set_status, Hfind; simpl; rewrite Htid, String.eqb_refl;
             simpl; rewrite String.eqb_refl; reflexivity
            | rewrite !set_status_others; reflexivity]).
Qed.

(** A failed run of one's own idle thread keeps the generations it recorded
    before [generateText] rejected: one debug row of the thread for each
    [executeCode] result of the finished steps, and none retagged final. *)
Theorem runThread_failure_keeps_debug_rows (nanoid : nat -> string) (uid tid : string)
  (steps : list (list tool_result)) (e : thrown) (d d' : database) (t : thread_row)
  (r : result string)
  (Hfind : find_thread (threads d) tid = Some t) (Hown : thread_userId t = uid)
  (Hidle : thread_status t <> "running")
  (Hrun : runThread nanoid (Some uid) tid (Fails steps e) d = (r, d')) :
  exists rows,
    generations d' = (generations d ++ rows)%list /\
    Forall (fun g => threadId g = tid /\ type g = Debug) rows /\
    length rows = length (filter is_executeCode (concat steps)).
Proof.
  unfold runThread in Hrun. rewrite Hfind, Hown, String.eqb_refl in Hrun.
  apply String.eqb_neq in Hidle. cbn [negb] in Hrun. rewrite Hidle in Hrun.
  unfold run_agent, simpleImageEditorAgent in Hrun. injection Hrun as _ <-.
  cbn [generations with_threads]. rewrite fold_steps_rows.
  eexists. split; [reflexivity |]. split; [| apply run_rows_length].
  eapply Forall_impl; [| apply run_rows_fields]. intros g [H1 [_ [H3 _]]]. auto.
Qed.

(** Continuing from a generation does not link the new generations to it:
    when the run completes and the ids it draws are fresh, the rows it adds
    all belong to the generation's thread and carry the new prompt, none has
    the continued generation as parent, and the first has no parent at all. *)
Theorem continueFromGeneration_unlinked (nanoid : nat -> string) (uid gid pr : string)
  (steps : list (list tool_result)) (d d' : database) (g : generation)
  (Hgen : find_generation (generations d) gid = Some g)
  (Hfresh : forall i, (i < length (filter is_executeCode (concat steps)))%nat ->
              ~ In (nanoid i) (map id (generations d)))
  (Hrun : continueFromGeneration nanoid (Some uid) gid pr (Completes steps) d =
            (Ok "completed", d')) :
  exists rows,
    generations d' = (generations d ++ rows)%list /\
    Forall (fun row => threadId row = threadId g /\ prompt row = pr /\
                       parentId row <> Some gid) rows /\
    (forall row, hd_error rows = Some row -> parentId row = None).
Proof.
  assert (Hgid : In gid (map id (generations d))).
  { unfold find_generation in Hgen. apply find_some in Hgen as [Hin Heq].
    apply String.eqb_eq in Heq. rewrite <- Heq. apply in_map. exact Hin. }
  unfold continueFromGeneration in Hrun.
  destruct (String.eqb pr ""); [discriminate |]. rewrite Hgen in Hrun.
  destruct (find_thread (threads d) (threadId g)) as [t |]; [| discriminate].
  destruct (negb _); [discriminate |]. destruct (String.eqb _ _); [discriminate |].
  unfold run_agent, simpleImageEditorAgent in Hrun. injection Hrun as <-. cbn [generations].
  destruct (run_generations_none_rows nanoid (threadId g) pr (generations d) steps Hfresh)
    as [rows [Hrows [Hf [Hhd _]]]].
  exists rows. split; [exact Hrows |]. split; [| exact Hhd].
  eapply Forall_impl; [| exact Hf]. intros row [H1 [H2 H3]]. repeat split; auto.
  destruct H3 as [H3 | [j [Hj H3]]]; rewrite H3; [discriminate |].
  intro Heq. injection Heq as Heq. apply (Hfresh j Hj). rewrite Heq. exact Hgid.
Qed.

(** [runThread] does not look at [deletedAt]: once one's own idle thread is
    deleted, [getThread] and a second [deleteThread] report it not found,
    yet [runThread] still runs it to [completed], leaving it deleted. *)
Theorem deleted_thread_still_runs (nanoid : nat -> string) (uid tid : string)
  (now now' : Z) (steps : list (list tool_result)) (d d1 : database) (t : thread_row)
  (Hfind : find_thread (threads d) tid = Some t) (Hown : thread_userId t = uid)
  (Hidle : thread_status t <> "running")
  (Hdel : deleteThread (Some uid) tid now d = (Ok true, d1)) :
  getThread (Some uid) tid d1 = (Err thread_not_found, d1) /\
  deleteThread (Some uid) tid now' d1 = (Err thread_not_found, d1) /\
  exists d2,
    runThread nanoid (Some uid) tid (Completes steps) d1 = (Ok "completed", d2) /\
    option_map (fun t => (thread_status t, thread_deletedAt t)) (find_thread (threads d2) tid) =
      Some ("completed", Some now).
Proof.
  assert (Htid := find_thread_id _ _ _ Hfind).
  unfold deleteThread in Hdel.
  destruct (find_live_thread (threads d) tid) as [t0 |]; [| discriminate].
  destruct (negb _); [discriminate |]. injection Hdel as <-.
  split; [unfold getThread; cbn [threads with_threads]; rewrite find_live_set_deletedAt; reflexivity |].
  split; [unfold deleteThread; cbn [threads with_threads]; rewrite find_live_set_deletedAt; reflexivity |].
  unfold runThread. cbn [threads with_threads].
  rewrite find_thread_set_deletedAt, Hfind. simpl option_map.
  rewrite Htid, String.eqb_refl. cbn [thread_userId thread_status].
  rewrite Hown, String.eqb_refl. apply String.eqb_neq in Hidle. cbn [negb]. rewrite Hidle.
  eexists. split; [reflexivity |].
  cbn [threads with_threads]. rewrite !find_thread_set_status, find_thread_set_deletedAt, Hfind.
  simpl. rewrite Htid, String.eqb_refl. simpl. rewrite String.eqb_refl. simpl.
  rewrite String.eqb_refl. reflexivity.
Qed.

(** A thread created with a fresh id and a non-empty prompt is returned by
    [getThread] to its creator as a pending thread of theirs, and a
    [runThread] of it by its creator then runs it. *)
Theorem createThread_then_run (nanoid : nat -> string) (uid pr newId : string)
  (steps : list (list tool_result)) (d d1 : database) (r : result string)
  (Hfresh : ~ In newId (map thread_id (threads d))) (Hpr : pr <> "")
  (Hc : createThread (Some uid) pr newId d = (r, d1)) :
  r = Ok newId /\
  getThread (Some uid) newId d1 =
    (Ok {| thread_id := newId; thread_userId := uid; thread_prompt := pr;
           thread_status := "pending"; thread_deletedAt := None |}, d1) /\
  fst (runThread nanoid (Some uid) newId (Completes steps) d1) = Ok "completed".
Proof.
  unfold createThread in Hc. apply String.eqb_neq in Hpr. rewrite Hpr in Hc.
  injection Hc as <- <-. split; [reflexivity |].
  assert (Hft : find_thread (threads d ++ [{| thread_id := newId; thread_userId := uid;
             thread_prompt := pr; thread_status := "pending"; thread_deletedAt := None |}])
             newId = Some {| thread_id := newId; thread_userId := uid;
             thread_prompt := pr; thread_status := "pending"; thread_deletedAt := None |}).
  { clear Hpr. unfold find_thread. induction (threads d) as [| t0 ts IH]; simpl.
    - rewrite String.eqb_refl. reflexivity.
    - simpl in Hfresh. destruct (String.eqb (thread_id t0) newId) eqn:E.
      + apply String.eqb_eq in E. exfalso. apply Hfresh. left. exact E.
      + apply IH. intro; apply Hfresh; right; assumption. }
  split.
  - unfold getThread. cbn [threads]. rewrite find_live_app_fresh by exact Hfresh.
    simpl. rewrite String.eqb_refl. simpl. rewrite String.eqb_refl. reflexivity.
  - unfold runThread. cbn [threads]. rewrite Hft. simpl. rewrite String.eqb_refl. reflexivity.
Qed.

(** A thread of another user is not found: with thread ids unique,
    [runThread], [deleteThread] and [getThread] on it report
    [Thread not found] and change nothing. *)
Theorem others_thread_not_found (nanoid : nat -> string) (uid tid : string) (now : Z)
  (outcome : agent_outcome) (d : database) (t : thread_row)
  (Hnd : NoDup (map thread_id (threads d)))
  (Hfind : find_thread (threads d) tid = Some t) (Hother : thread_userId t <> uid) :
  runThread nanoid (Some uid) tid outcome d = (Err thread_not_found, d) /\
  deleteThread (Some uid) tid now d = (Err thread_not_found, d) /\
  getThread (Some uid) tid d = (Err thread_not_found, d).
Proof.
  apply String.eqb_neq in Hother.
  assert (Hl := find_thread_live _ _ _ Hnd Hfind).
  split; [unfold runThread; rewrite Hfind, Hother; reflexivity |].
  split; [unfold deleteThread | unfold getThread]; rewrite Hl;
    destruct (is_live t); try reflexivity; rewrite Hother; reflexivity.
Qed.

(** A small database for the witnesses: thread [t1] of user [u] holding one
    final generation [g1], and thread [t2] of user [v], running. *)
Definition demo_thread (tid uid status : string) : thread_row :=
  {| thread_id := tid; thread_userId := uid; thread_prompt := "draw a house";
     thread_status := status; thread_deletedAt := None |}.

Definition demo_db : database :=
  {| threads := [demo_thread "t1" "u" "completed"; demo_thread "t2" "v" "running"];
     generations := [{| id := "g1"; threadId := "t1"; parentId := None; type := Final;
                        prompt := "draw a house"; code := "c0"; imageData := "png" |}] |}.

Definition demo_steps : list (list tool_result) :=
  [[exec_result "v1"];
   [{| toolName := "listFiles"; output_code := ""; output_imageData := "" |}; exec_result "v2"]].

Lemma runThread_rejection_keeps_database_witness :
  runThread ids_abc (Some "u") "t2" (Completes demo_steps) demo_db =
    (Err thread_not_found, demo_db) /\
  failure_code thread_not_found <> "INTERNAL_SERVER_ERROR" /\
  demo_db = demo_db.
Proof.
  assert (H1 : runThread ids_abc (Some "u") "t2" (Completes demo_steps) demo_db =
                 (Err thread_not_found, demo_db)) by reflexivity.
  assert (H2 : failure_code thread_not_found <> "INTERNAL_SERVER_ERROR")
    by (cbv [failure_code thread_not_found]; discriminate).
  split; [exact H1 |]. split; [exact H2 |].
  exact (runThread_rejection_keeps_database ids_abc (Some "u") "t2" (Completes demo_steps)
           demo_db demo_db thread_not_found H1 H2).
Defined.

Lemma continueFromGeneration_rejection_keeps_database_witness :
  continueFromGeneration ids_abc (Some "v") "g1" "make it blue" (Completes demo_steps) demo_db =
    (Err generation_not_found, demo_db) /\
  failure_code generation_not_found <> "INTERNAL_SERVER_ERROR" /\
  demo_db = demo_db.
Proof.
  assert (H1 : continueFromGeneration ids_abc (Some "v") "g1" "make it blue"
                 (Completes demo_steps) demo_db = (Err generation_not_found, demo_db))
    by reflexivity.
  assert (H2 : failure_code generation_not_found <> "INTERNAL_SERVER_ERROR")
    by (cbv [failure_code generation_not_found]; discriminate).
  split; [exact H1 |]. split; [exact H2 |].
  exact (continueFromGeneration_rejection_keeps_database ids_abc (Some "v") "g1" "make it blue"
           (Completes demo_steps) demo_db demo_db generation_not_found H1 H2).
Defined.

Lemma runThread_status_witness :
  find_thread (threads demo_db) "t1" = Some (demo_thread "t1" "u" "completed") /\
  exists r d',
    runThread ids_abc (Some "u") "t1" (Fails demo_steps (JsString "boom")) demo_db = (r, d') /\
    r = Err (TRPCError "INTERNAL_SERVER_ERROR" (internal_message (JsString "boom"))) /\
    option_map thread_status (find_thread (threads d') "t1") = Some "failed" /\
    filter (fun t => negb (String.eqb (thread_id t) "t1")) (threads d') =
      filter (fun t => negb (String.eqb (thread_id t) "t1")) (threads demo_db).
Proof.
  assert (Hf : find_thread (threads demo_db) "t1" = Some (demo_thread "t1" "u" "completed"))
    by reflexivity.
  split; [exact Hf |]. eexists. eexists. split; [reflexivity |].
  apply (runThread_status ids_abc "u" "t1" (Fails demo_steps (JsString "boom")) demo_db _
           (demo_thread "t1" "u" "completed") _ Hf eq_refl ltac:(discriminate) eq_refl).
Defined.

Lemma runThread_failure_keeps_debug_rows_witness :
  find_thread (threads demo_db) "t1" = Some (demo_thread "t1" "u" "completed") /\
  exists r d',
    runThread ids_abc (Some "u") "t1"
      (Fails demo_steps (JsError "Error" "rate limited")) demo_db = (r, d') /\
    exists rows,
      generations d' = (generations demo_db ++ rows)%list /\
      Forall (fun g => threadId g = "t1" /\ type g = Debug) rows /\
      length rows = 2%nat.
Proof.
  assert (Hf : find_thread (threads demo_db) "t1" = Some (demo_thread "t1" "u" "completed"))
    by reflexivity.
  split; [exact Hf |]. eexists. eexists. split; [reflexivity |].
  exact (runThread_failure_keeps_debug_rows ids_abc "u" "t1" demo_steps
           (JsError "Error" "rate limited") demo_db _ (demo_thread "t1" "u" "completed") _
           Hf eq_refl ltac:(discriminate) eq_refl).
Defined.

Lemma continueFromGeneration_unlinked_witness :
  exists d',
    continueFromGeneration ids_abc (Some "u") "g1" "make it blue" (Completes demo_steps)
      demo_db = (Ok "completed", d') /\
    exists rows,
      generations d' = (generations demo_db ++ rows)%list /\
      Forall (fun row => threadId row = "t1" /\ prompt row = "make it blue" /\
                         parentId row <> Some "g1") rows /\
      (forall row, hd_error rows = Some row -> parentId row = None).
Proof.
  eexists. split; [reflexivity |].
  apply (continueFromGeneration_unlinked ids_abc "u" "g1" "make it blue" demo_steps demo_db _
           {| id := "g1"; threadId := "t1"; parentId := None; type := Final;
              prompt := "draw a house"; code := "c0"; imageData := "png" |} eq_refl).
  - simpl. intros i Hi. destruct i as [| [| i]]; simpl; [| | lia]; intuition discriminate.
  - reflexivity.
Defined.

Lemma deleted_thread_still_runs_witness :
  exists d1,
    deleteThread (Some "u") "t1" 1000 demo_db = (Ok true, d1) /\
    getThread (Some "u") "t1" d1 = (Err thread_not_found, d1) /\
    deleteThread (Some "u") "t1" 2000 d1 = (Err thread_not_found, d1) /\
    exists d2,
      runThread ids_abc (Some "u") "t1" (Completes demo_steps) d1 = (Ok "completed", d2) /\
      option_map (fun t => (thread_status t, thread_deletedAt t))
        (find_thread (threads d2) "t1") = Some ("completed", Some 1000%Z).
Proof.
  eexists. split; [reflexivity |].
  apply (deleted_thread_still_runs ids_abc "u" "t1" 1000 2000 demo_steps demo_db _
           (demo_thread "t1" "u" "completed") eq_refl eq_refl ltac:(discriminate) eq_refl).
Defined.

Lemma createThread_then_run_witness :
  exists r d1,
    createThread (Some "u") "a fox" "t3" demo_db = (r, d1) /\
    r = Ok "t3" /\
    getThread (Some "u") "t3" d1 =
      (Ok {| thread_id := "t3"; thread_userId := "u"; thread_prompt := "a fox";
             thread_status := "pending"; thread_deletedAt := None |}, d1) /\
    fst (runThread ids_abc (Some "u") "t3" (Completes demo_steps) d1) = Ok "completed".
Proof.
  eexists. eexists. split; [reflexivity |].
  apply (createThread_then_run ids_abc "u" "a fox" "t3" demo_steps demo_db _ _).
  - simpl. intuition discriminate.
  - discriminate.
  - reflexivity.
Defined.

Lemma others_thread_not_found_witness :
  NoDup (map thread_id (threads demo_db)) /\
  runThread ids_abc (Some "u") "t2" (Completes demo_steps) demo_db =
    (Err thread_not_found, demo_db) /\
  deleteThread (Some "u") "t2" 1000 demo_db = (Err thread_not_found, demo_db) /\
  getThread (Some "u") "t2" demo_db = (Err thread_not_found, demo_db).
Proof.
  assert (Hnd : NoDup (map thread_id (threads demo_db))).
  { simpl. repeat constructor; simpl; intuition discriminate. }
  split; [exact Hnd |].
  exact (others_thread_not_found ids_abc "u" "t2" 1000 (Completes demo_steps) demo_db
           (demo_thread "t2" "v" "running") Hnd eq_refl ltac:(discriminate)).
Defined.

End RouterFacts.

(* ------------------------------------------------------------------ *)
(** ** The code-search session of [executeCode] (part_012) *)

Module CodeSearchSession.
Import CodeSearch.

Section Session.

Variable read_file : string -> promise string.
Variable RegExp : string -> promise (string -> bool).
Variable readdir_at : list string -> promise (list dirent).
(** [glob(pattern, { cwd: path.join(rootDir, searchPath), nodir: true })] *)
Variable glob_at : string -> string -> promise (list string).
(** [path.join] *)
Variable path_join : string -> string -> string.

(** [search.listFiles(searchPath, pattern)] *)
Definition listFiles (searchPath pattern : string) (st : search_state)
  : promise (list string) * search_state :=
  let st' := {| filesRead := filesRead st; searchesPerformed := S (searchesPerformed st) |} in
  match glob_at searchPath pattern with
  | Rejected t => (Rejected t, st')
  | Resolved matches => (Resolved (map (path_join searchPath) matches), st')
  end.

(** A call the user's code makes on [search], awaited before the next. *)
Inductive search_call :=
| CallListFiles (searchPath pattern : string)
| CallGrep (pattern : string) (searchPath : option (list string)) (options : option GrepOptions)
| CallReadFile (filePath : string) (options : option ReadFileOptions).

(** The closure state after one call, whether it resolved or rejected (the
    user's code may catch a rejection and go on). *)
Definition run_call (st : search_state) (c : search_call) : search_state :=
  match c with
  | CallListFiles sp pat => snd (listFiles sp pat st)
  | CallGrep pat sp o => snd (grep RegExp readdir_at pat sp o st)
  | CallReadFile p o => snd (readFile read_file p o st)
  end.

Definition run_session (cs : list search_call) (st : search_state) : search_state :=
  fold_left run_call cs st.

End Session.

(** The metadata [executeCode] returns after a sequence of awaited calls:
    [filesRead] lists, in order, the paths of the [readFile] calls whose read
    succeeded, and [searchesPerformed] counts every [listFiles] and [grep]
    call, also those that rejected (an invalid pattern, an unreadable
    directory). *)
Theorem session_metadata (read_file : string -> promise string)
  (RegExp : string -> promise (string -> bool))
  (readdir_at : list string -> promise (list dirent))
  (glob_at : string -> string -> promise (list string))
  (path_join : string -> string -> string) (cs : list search_call) (st : search_state) :
  run_session read_file RegExp readdir_at glob_at path_join cs st =
    {| filesRead := filesRead st ++
         flat_map (fun c => match c with
                            | CallReadFile p _ =>
                                match read_file p with Resolved _ => [p] | Rejected _ => [] end
                            | _ => []
                            end) cs;
       searchesPerformed := (searchesPerformed st +
         length (filter (fun c => match c with CallReadFile _ _ => false | _ => true end) cs))%nat |}.
Proof.
  unfold run_session. revert st.
  induction cs as [| c cs IH]; intro st; simpl.
  - destruct st. simpl. rewrite app_nil_r, Nat.add_0_r. reflexivity.
  - rewrite IH. destruct c as [sp pat | pat sp o | p o]; simpl.
    + unfold listFiles. destruct (glob_at sp pat); simpl; f_equal; lia.
    + unfold grep. cbv zeta. destruct (RegExp pat) as [test |]; [| simpl; f_equal; lia].
      destruct (searchDir (coalesce (opt_get go_limit o) 50%Z) test (coalesce sp [])
                  (DirEntry "" (readdir_at (coalesce sp []))) []) as [[b r] |];
        simpl; f_equal; lia.
    + unfold readFile. destruct (read_file p); simpl.
      * rewrite <- app_assoc. reflexivity.
      * reflexivity.
Qed.

End CodeSearchSession.
